(** * CodeSanitizer: the pattern engine of [src/extension.ts]

    A shallow embedding of [removePatterns], [highlightPatterns] and
    [getRangesForPatterns], together with the part of ECMAScript's
    [String.prototype.replace] and [RegExp.prototype.exec] those functions
    rely on.

    Texts are sequences of UTF-16 code units, as JavaScript strings are; a
    code unit is an [N].  None of the regular expressions carries the [u] or
    [i] flag, so matching works code unit by code unit and case-sensitively. *)

From Stdlib Require Import List NArith String Ascii Bool Arith Lia.
Import ListNotations.

(** ** Strings *)

Definition char := N.
Definition jsstring := list char.

Definition ch (a : ascii) : char := N_of_ascii a.

(** An ASCII literal of this file as a JavaScript string. *)
Definition str (s : string) : jsstring := map ch (list_ascii_of_string s).

Definition LF : char := 10%N.
Definition DQUOTE : char := 34%N.

(** ** Regular expressions

    Every regular expression literal of the source is a flat sequence of
    terms: an assertion ([^], [$]) or a one-character atom with a
    quantifier.  No literal has a group, an alternation or a back
    reference. *)

Module RegExp.

(** Members of a bracket expression [[...]]. *)
Inductive member :=
| MChar (c : char)            (* a literal character        *)
| MRange (lo hi : char)       (* lo-hi                      *)
| MSpace                      (* \s                         *)
| MNonSpace.                  (* \S                         *)

Inductive atom :=
| Chr (c : char)              (* a pattern character, or an escaped one *)
| Dot                         (* .                                     *)
| Space                       (* \s                                    *)
| Class (negated : bool) (members : list member).   (* [...] and [^...] *)

Inductive quantifier :=
| One                         (* no quantifier *)
| Opt                         (* ?             *)
| Star                        (* *             *)
| Plus                        (* +             *)
| LazyStar.                   (* *?            *)

Inductive term :=
| Caret                       (* ^ *)
| Dollar                      (* $ *)
| Atom (a : atom) (q : quantifier).

(** A RegExp object: the literal's pattern and flags, and the mutable
    [lastIndex] property. *)
Record t := mk {
  source : list term;
  global : bool;
  multiline : bool;
  dotAll : bool;
  lastIndex : nat
}.

Definition setLastIndex (i : nat) (r : t) : t :=
  mk (source r) (global r) (multiline r) (dotAll r) i.

(** ECMAScript's WhiteSpace and LineTerminator code points: what [\s]
    matches. *)
Definition isSpace (c : char) : bool :=
  ((9 <=? c) && (c <=? 13) || (c =? 32) || (c =? 160) || (c =? 5760)
   || (8192 <=? c) && (c <=? 8202)
   || (c =? 8232) || (c =? 8233) || (c =? 8239) || (c =? 8287)
   || (c =? 12288) || (c =? 65279))%N.

(** LineTerminator: LF, CR, LS, PS. *)
Definition isLineTerminator (c : char) : bool :=
  ((c =? 10) || (c =? 13) || (c =? 8232) || (c =? 8233))%N.

Definition memberMatches (m : member) (c : char) : bool :=
  match m with
  | MChar d => (c =? d)%N
  | MRange lo hi => ((lo <=? c) && (c <=? hi))%N
  | MSpace => isSpace c
  | MNonSpace => negb (isSpace c)
  end.

Section Matcher.

(** The flags that change what a pattern matches. *)
Variable m_flag s_flag : bool.

Definition atomMatches (a : atom) (c : char) : bool :=
  match a with
  | Chr d => (c =? d)%N
  | Dot => s_flag || negb (isLineTerminator c)
  | Space => isSpace c
  | Class neg ms => xorb neg (existsb (fun m => memberMatches m c) ms)
  end.

(** A matcher state is the character before the current position (none at
    the start of the input) and the input from the current position on.  A
    continuation answers how many characters the rest of the pattern
    consumes from there, or fails. *)
Definition cont := option char -> jsstring -> option nat.

Definition atLineStart (prev : option char) : bool :=
  match prev with
  | None => true
  | Some c => m_flag && isLineTerminator c
  end.

Definition atLineEnd (s : jsstring) : bool :=
  match s with
  | [] => true
  | c :: _ => m_flag && isLineTerminator c
  end.

Definition matchOne (a : atom) (k : cont) : cont :=
  fun _ s =>
    match s with
    | c :: s' => if atomMatches a c then option_map S (k (Some c) s') else None
    | [] => None
    end.

(** Greedy repetition: one more character first, the rest of the pattern
    only when that fails. *)
Fixpoint matchStar (a : atom) (k : cont) (prev : option char) (s : jsstring)
  : option nat :=
  match s with
  | c :: s' =>
      if atomMatches a c then
        match matchStar a k (Some c) s' with
        | Some n => Some (S n)
        | None => k prev s
        end
      else k prev s
  | [] => k prev s
  end.

(** Lazy repetition: the rest of the pattern first, one more character only
    when that fails. *)
Fixpoint matchLazyStar (a : atom) (k : cont) (prev : option char) (s : jsstring)
  : option nat :=
  match k prev s with
  | Some n => Some n
  | None =>
      match s with
      | c :: s' =>
          if atomMatches a c
          then option_map S (matchLazyStar a k (Some c) s')
          else None
      | [] => None
      end
  end.

Definition matchOpt (a : atom) (k : cont) : cont :=
  fun prev s =>
    match matchOne a k prev s with
    | Some n => Some n
    | None => k prev s
    end.

Definition matchTerm (t : term) (k : cont) : cont :=
  match t with
  | Caret => fun prev s => if atLineStart prev then k prev s else None
  | Dollar => fun prev s => if atLineEnd s then k prev s else None
  | Atom a One => matchOne a k
  | Atom a Opt => matchOpt a k
  | Atom a Star => matchStar a k
  | Atom a Plus => matchOne a (matchStar a k)
  | Atom a LazyStar => matchLazyStar a k
  end.

(** The matcher of a whole pattern: the length of the match that starts at
    the current position, following the backtracking priority of
    ECMAScript. *)
Fixpoint matchTerms (ts : list term) : cont :=
  match ts with
  | [] => fun _ _ => Some 0
  | t :: ts' => matchTerm t (matchTerms ts')
  end.

End Matcher.

Definition matcher (r : t) : cont :=
  matchTerms (multiline r) (dotAll r) (source r).

(** The scan of RegExpBuiltinExec: the first position from [i] on where the
    matcher succeeds, with the length of the match. *)
Fixpoint search (r : t) (prev : option char) (s : jsstring) (i : nat)
  : option (nat * nat) :=
  match matcher r prev s with
  | Some n => Some (i, n)
  | None =>
      match s with
      | [] => None
      | c :: s' => search r (Some c) s' (S i)
      end
  end.

Definition charBefore (s : jsstring) (i : nat) : option char :=
  match i with
  | 0 => None
  | S j => nth_error s j
  end.

(** The result of a successful [exec]: [match.index] and [match[0]]. *)
Record result := mkResult {
  index : nat;
  matched : jsstring
}.

(** [regex.exec(s)]: the match, and the RegExp object afterwards.  Without
    the [g] flag the scan starts at 0 and [lastIndex] is left alone. *)
Definition exec (r : t) (s : jsstring) : option result * t :=
  let li := if global r then lastIndex r else 0 in
  if List.length s <? li then
    (None, if global r then setLastIndex 0 r else r)
  else
    match search r (charBefore s li) (skipn li s) li with
    | None => (None, if global r then setLastIndex 0 r else r)
    | Some (i, n) =>
        (Some (mkResult i (firstn n (skipn i s))),
         if global r then setLastIndex (i + n) r else r)
    end.

(** [s.replace(r, repl)] for a pattern with the [g] flag and a replacement
    without [$] sequences.  [skip] counts the characters of the current
    match still to be dropped.  After an empty match the scan resumes one
    character further on, and that character is kept. *)
Fixpoint replaceAllFrom (r : t) (repl : jsstring) (skip : nat)
  (prev : option char) (s : jsstring) : jsstring :=
  match skip with
  | S k =>
      match s with
      | c :: s' => replaceAllFrom r repl k (Some c) s'
      | [] => []
      end
  | 0 =>
      match matcher r prev s with
      | Some (S k) =>
          repl ++ match s with
                  | c :: s' => replaceAllFrom r repl k (Some c) s'
                  | [] => []
                  end
      | Some 0 =>
          repl ++ match s with
                  | c :: s' => c :: replaceAllFrom r repl 0 (Some c) s'
                  | [] => []
                  end
      | None =>
          match s with
          | c :: s' => c :: replaceAllFrom r repl 0 (Some c) s'
          | [] => []
          end
      end
  end.

(** [s.replace(r, repl)]: every match for a global pattern, the first one
    otherwise. *)
Definition replace (s : jsstring) (r : t) (repl : jsstring) : jsstring :=
  if global r then replaceAllFrom r repl 0 None s
  else
    match search r None s 0 with
    | None => s
    | Some (i, n) => firstn i s ++ repl ++ skipn (i + n) s
    end.

(** [r.test(s)] on a fresh object: does the pattern match anywhere. *)
Definition test (r : t) (s : jsstring) : bool :=
  match search r None s 0 with
  | Some _ => true
  | None => false
  end.

(** *** Writing literals *)

Definition lits (s : string) : list term :=
  map (fun c => Atom (Chr c) One) (str s).

Definition anySpace : term := Atom Space Star.

(** [[^c]*] *)
Definition manyNot (c : ascii) : term :=
  Atom (Class true [MChar (ch c)]) Star.

(** [[\s\S]*?] *)
Definition lazyAny : term := Atom (Class false [MSpace; MNonSpace]) LazyStar.

(** A literal with flags [g], [gm] or [gs], or without flags. *)
Definition flags_g (ts : list term) : t := mk ts true false false 0.
Definition flags_gm (ts : list term) : t := mk ts true true false 0.
Definition flags_gs (ts : list term) : t := mk ts true false true 0.
Definition flags_none (ts : list term) : t := mk ts false false false 0.

End RegExp.

Import RegExp.

Open Scope string_scope.
Open Scope list_scope.

(** ** The rule tables and the two entry points *)

(** An entry of a pattern table: [{ regex: RegExp, languages?: string[] }]. *)
Record Pattern := mkPattern {
  regex : RegExp.t;
  languages : option (list string)
}.

(** [!pattern.languages || pattern.languages.includes(languageId)] *)
Definition applies (pattern : Pattern) (languageId : string) : bool :=
  match languages pattern with
  | None => true
  | Some ls => existsb (String.eqb languageId) ls
  end.

Definition cLike : list string :=
  ["javascript"; "typescript"; "java"; "cpp"; "c"; "csharp"; "go"; "rust";
   "dart"].

Definition hashLike : list string :=
  ["python"; "ruby"; "perl"; "yaml"; "dockerfile"; "shellscript"].

(** Three double quotes, as pattern characters. *)
Definition tripleDouble : list term :=
  map (fun c => Atom (Chr c) One) [DQUOTE; DQUOTE; DQUOTE].

(** The [patterns] array of [removePatterns], in its order. *)
Definition patterns : list Pattern :=
  [ (* /^\s*console\.log\([^)]*\);?\s*$/gm *)
    mkPattern
      (flags_gm ([Caret; anySpace] ++ lits "console.log(" ++ [manyNot ")"]
                 ++ lits ")" ++ [Atom (Chr (ch ";")) Opt; anySpace; Dollar]))
      (Some ["javascript"; "typescript"]);
    (* /^\s*print\([^)]*\);?\s*$/gm *)
    mkPattern
      (flags_gm ([Caret; anySpace] ++ lits "print(" ++ [manyNot ")"]
                 ++ lits ")" ++ [Atom (Chr (ch ";")) Opt; anySpace; Dollar]))
      (Some ["python"]);
    (* /^\s*printf\([^)]*\);?\s*$/gm *)
    mkPattern
      (flags_gm ([Caret; anySpace] ++ lits "printf(" ++ [manyNot ")"]
                 ++ lits ")" ++ [Atom (Chr (ch ";")) Opt; anySpace; Dollar]))
      (Some ["c"; "cpp"]);
    (* /^\s*std::cout\s*<<[^;]*;\s*$/gm *)
    mkPattern
      (flags_gm ([Caret; anySpace] ++ lits "std::cout" ++ [anySpace]
                 ++ lits "<<" ++ [manyNot ";"] ++ lits ";"
                 ++ [anySpace; Dollar]))
      (Some ["cpp"]);
    (* /^\s*System\.out\.println\([^)]*\);?\s*$/gm *)
    mkPattern
      (flags_gm ([Caret; anySpace] ++ lits "System.out.println("
                 ++ [manyNot ")"] ++ lits ")"
                 ++ [Atom (Chr (ch ";")) Opt; anySpace; Dollar]))
      (Some ["java"]);
    (* /^\s*puts?\s+[^;]*;?\s*$/gm *)
    mkPattern
      (flags_gm ([Caret; anySpace] ++ lits "put"
                 ++ [Atom (Chr (ch "s")) Opt; Atom Space Plus; manyNot ";";
                     Atom (Chr (ch ";")) Opt; anySpace; Dollar]))
      (Some ["ruby"]);
    (* /^\s*echo\s+[^;]*;?\s*$/gm *)
    mkPattern
      (flags_gm ([Caret; anySpace] ++ lits "echo"
                 ++ [Atom Space Plus; manyNot ";";
                     Atom (Chr (ch ";")) Opt; anySpace; Dollar]))
      (Some ["php"]);
    (* /^\s*\/\/.*$/gm *)
    mkPattern
      (flags_gm ([Caret; anySpace] ++ lits "//" ++ [Atom Dot Star; Dollar]))
      (Some cLike);
    (* /\/\*[\s\S]*?\*\//g *)
    mkPattern
      (flags_g (lits "/*" ++ [lazyAny] ++ lits "*/"))
      (Some cLike);
    (* /^\s*#.*$/gm *)
    mkPattern
      (flags_gm ([Caret; anySpace] ++ lits "#" ++ [Atom Dot Star; Dollar]))
      (Some hashLike);
    (* /<!--[\s\S]*?-->/g *)
    mkPattern
      (flags_g (lits "<!--" ++ [lazyAny] ++ lits "-->"))
      (Some ["html"; "xml"]);
    (* /^\s*'''[\s\S]*?'''\s*$/gm *)
    mkPattern
      (flags_gm ([Caret; anySpace] ++ lits "'''" ++ [lazyAny] ++ lits "'''"
                 ++ [anySpace; Dollar]))
      (Some ["python"]);
    (* /^\s*QQQ[\s\S]*?QQQ\s*$/gm, where Q stands for the double quote *)
    mkPattern
      (flags_gm ([Caret; anySpace] ++ tripleDouble ++ [lazyAny]
                 ++ tripleDouble ++ [anySpace; Dollar]))
      (Some ["python"]) ].

(** [/\n\s*\n\s*\n/g] *)
Definition blankRun : RegExp.t :=
  flags_g [Atom (Chr LF) One; anySpace; Atom (Chr LF) One; anySpace;
           Atom (Chr LF) One].

(** [/[ \t]+$/gm] *)
Definition trailingBlanks : RegExp.t :=
  flags_gm [Atom (Class false [MChar 32%N; MChar 9%N]) Plus; Dollar].

(** [/^\s*\n/] *)
Definition leadingBlank : RegExp.t :=
  flags_none [Caret; anySpace; Atom (Chr LF) One].

(** [/[\u200B-\u200D\uFEFF]/g] *)
Definition invisible : RegExp.t :=
  flags_g [Atom (Class false [MRange 8203%N 8205%N; MChar 65279%N]) One].

(** The [forEach] over [patterns]: every applicable pattern deletes its
    matches from the text the patterns before it left. *)
Definition applyPatterns (ps : list Pattern) (languageId : string)
  (cleanedText : jsstring) : jsstring :=
  fold_left
    (fun cleaned pattern =>
       if applies pattern languageId
       then replace cleaned (regex pattern) []
       else cleaned)
    ps cleanedText.

(** The four [replace] calls after the [forEach], in their order. *)
Definition collapseBlankLines (s : jsstring) : jsstring :=
  replace s blankRun [LF; LF].
Definition stripTrailing (s : jsstring) : jsstring :=
  replace s trailingBlanks [].
Definition stripLeadingBlank (s : jsstring) : jsstring :=
  replace s leadingBlank [].
Definition stripInvisible (s : jsstring) : jsstring :=
  replace s invisible [].

Definition removePatterns (text : jsstring) (languageId : string) : jsstring :=
  let cleanedText := text in
  let cleanedText := applyPatterns patterns languageId cleanedText in
  let cleanedText := collapseBlankLines cleanedText in
  let cleanedText := stripTrailing cleanedText in
  let cleanedText := stripLeadingBlank cleanedText in
  let cleanedText := stripInvisible cleanedText in
  cleanedText.

(** *** The highlight path *)

(** A [vscode.Range].  [document.positionAt] turns an offset of the
    document's text into a line and column and is one to one on the offsets
    of the text, so a position is kept as its offset. *)
Record Range := mkRange {
  range_start : nat;
  range_end : nat
}.

Definition positionAt (offset : nat) : nat := offset.

(** [text.substring(start, end)] for [start <= end]. *)
Definition substring (s : jsstring) (i j : nat) : jsstring :=
  firstn (j - i) (skipn i s).

(** The [printPatterns] array of [highlightPatterns]. *)
Definition printPatterns : list Pattern :=
  [ (* /console\.log\([^)]*\);?/g *)
    mkPattern
      (flags_g (lits "console.log(" ++ [manyNot ")"] ++ lits ")"
                ++ [Atom (Chr (ch ";")) Opt]))
      (Some ["javascript"; "typescript"]);
    (* /print\([^)]*\);?/g *)
    mkPattern
      (flags_g (lits "print(" ++ [manyNot ")"] ++ lits ")"
                ++ [Atom (Chr (ch ";")) Opt]))
      (Some ["python"]);
    (* /printf\([^)]*\);?/g *)
    mkPattern
      (flags_g (lits "printf(" ++ [manyNot ")"] ++ lits ")"
                ++ [Atom (Chr (ch ";")) Opt]))
      (Some ["c"; "cpp"]);
    (* /std::cout\s*<<[^;]*;/g *)
    mkPattern
      (flags_g (lits "std::cout" ++ [anySpace] ++ lits "<<" ++ [manyNot ";"]
                ++ lits ";"))
      (Some ["cpp"]);
    (* /System\.out\.println\([^)]*\);?/g *)
    mkPattern
      (flags_g (lits "System.out.println(" ++ [manyNot ")"] ++ lits ")"
                ++ [Atom (Chr (ch ";")) Opt]))
      (Some ["java"]);
    (* /puts?\s+[^;]*;?/g *)
    mkPattern
      (flags_g (lits "put"
                ++ [Atom (Chr (ch "s")) Opt; Atom Space Plus; manyNot ";";
                    Atom (Chr (ch ";")) Opt]))
      (Some ["ruby"]);
    (* /echo\s+[^;]*;?/g *)
    mkPattern
      (flags_g (lits "echo"
                ++ [Atom Space Plus; manyNot ";"; Atom (Chr (ch ";")) Opt]))
      (Some ["php"]) ].

(** The [commentPatterns] array of [highlightPatterns]. *)
Definition commentPatterns : list Pattern :=
  [ (* /\/\/.*$/gm *)
    mkPattern (flags_gm (lits "//" ++ [Atom Dot Star; Dollar])) (Some cLike);
    (* /\/\*[\s\S]*?\*\//g *)
    mkPattern (flags_g (lits "/*" ++ [lazyAny] ++ lits "*/")) (Some cLike);
    (* /#.*$/gm *)
    mkPattern (flags_gm (lits "#" ++ [Atom Dot Star; Dollar])) (Some hashLike);
    (* /<!--[\s\S]*?-->/g *)
    mkPattern (flags_g (lits "<!--" ++ [lazyAny] ++ lits "-->"))
      (Some ["html"; "xml"]);
    (* /'''.*?'''/gs *)
    mkPattern (flags_gs (lits "'''" ++ [Atom Dot LazyStar] ++ lits "'''"))
      (Some ["python"]);
    (* /QQQ.*?QQQ/gs, where Q stands for the double quote *)
    mkPattern (flags_gs (tripleDouble ++ [Atom Dot LazyStar] ++ tripleDouble))
      (Some ["python"]) ].

(** The loops of the highlight path may run for ever: [exec] on a pattern
    that matches the empty string never moves [lastIndex].  They are run on
    fuel, one unit for each call of [exec]; [None] is a loop that has not
    come to its end. *)
Definition bind {A B : Type} (x : option A) (f : A -> option B) : option B :=
  match x with
  | Some a => f a
  | None => None
  end.

Notation "x <- e ;; k" := (bind e (fun x => k))
  (at level 61, e at next level, right associativity).
Notation "' p <- e ;; k" := (bind e (fun p => k))
  (at level 61, p pattern, e at next level, right associativity).

(** [while ((match = pattern.regex.exec(text)) !== null) { ranges.push(...) }]:
    the ranges pushed so far and the RegExp object are the state. *)
Fixpoint execLoop (fuel : nat) (r : RegExp.t) (text : jsstring)
  (ranges : list Range) : option (list Range * RegExp.t) :=
  match fuel with
  | 0 => None
  | S fuel' =>
      match exec r text with
      | (None, r') => Some (ranges, r')
      | (Some m, r') =>
          let startPos := positionAt (index m) in
          let endPos := positionAt (index m + List.length (matched m)) in
          execLoop fuel' r' text (ranges ++ [mkRange startPos endPos])
      end
  end.

(** The body of [patterns.forEach] in [getRangesForPatterns], pattern after
    pattern; the pattern objects come back with the [lastIndex] the loop
    left in them. *)
Fixpoint forEachPattern (fuel : nat) (text : jsstring) (languageId : string)
  (ps : list Pattern) (ranges : list Range)
  : option (list Range * list Pattern) :=
  match ps with
  | [] => Some (ranges, [])
  | pattern :: ps' =>
      if applies pattern languageId then
        '(ranges', r') <-
          execLoop fuel (setLastIndex 0 (regex pattern)) text ranges ;;
        '(ranges'', ps'') <- forEachPattern fuel text languageId ps' ranges' ;;
        Some (ranges'', mkPattern r' (languages pattern) :: ps'')
      else
        '(ranges', ps'') <- forEachPattern fuel text languageId ps' ranges ;;
        Some (ranges', pattern :: ps'')
  end.

Definition getRangesForPatterns (fuel : nat) (text : jsstring)
  (patterns : list Pattern) (languageId : string)
  : option (list Range * list Pattern) :=
  forEachPattern fuel text languageId patterns [].

(** [highlightPatterns]: the ranges handed to [setDecorations] for the print
    decoration and for the comment decoration.  Both tables are built anew
    on every call. *)
Definition highlightPatterns (fuel : nat) (text : jsstring)
  (languageId : string) : option (list Range * list Range) :=
  '(printRanges, _) <-
    getRangesForPatterns fuel text printPatterns languageId ;;
  '(commentRanges, _) <-
    getRangesForPatterns fuel text commentPatterns languageId ;;
  Some (printRanges, commentRanges).

(** ** Definitions used by the statements *)

(** The least number of characters a term, and a pattern, can match. *)
Definition termMin (t : term) : nat :=
  match t with
  | Atom _ One | Atom _ Plus => 1
  | _ => 0
  end.

Definition minLength (ts : list term) : nat :=
  fold_right (fun t n => termMin t + n) 0 ts.

(** A continuation that consumes at least [lo] characters and never more
    than the input has. *)
Definition bounded (lo : nat) (k : cont) : Prop :=
  forall prev s n, k prev s = Some n -> lo <= n <= List.length s.

(** The normalization of the specification: blank-line collapse, trailing
    whitespace strip, leading blank line strip, invisible character
    removal, and no removal rule. *)
Definition normalize (t : jsstring) : jsstring :=
  stripInvisible (stripLeadingBlank (stripTrailing (collapseBlankLines t))).

(** No removal rule of the language and no normalization pattern matches
    anywhere in [t]. *)
Definition quiescent (t : jsstring) (languageId : string) : bool :=
  forallb
    (fun pattern =>
       negb (applies pattern languageId) || negb (test (regex pattern) t))
    patterns
  && negb (test blankRun t) && negb (test trailingBlanks t)
  && negb (test leadingBlank t) && negb (test invisible t).

(** [t] does not begin with whitespace that runs up to a line feed. *)
Definition noLeadingBlank (t : jsstring) : Prop :=
  forall ws rest,
    t = ws ++ LF :: rest -> Forall (fun c => isSpace c = true) ws -> False.

(** The pattern character a pattern must begin its match with, if any. *)
Definition firstChar (r : RegExp.t) : option char :=
  match source r with
  | Atom (Chr c) One :: _ => Some c
  | _ => None
  end.

Definition startsVisibly (pattern : Pattern) : bool :=
  match firstChar (regex pattern) with
  | Some c => negb (isSpace c)
  | None => false
  end.

(** A table whose loops come to an end: every pattern is global and cannot
    match the empty string. *)
Definition advancing (pattern : Pattern) : bool :=
  global (regex pattern) && (1 <=? minLength (source (regex pattern)))%nat.

(** The same table, with other cursors left in the RegExp objects. *)
Definition sameLiteral (p q : Pattern) : Prop :=
  languages p = languages q
  /\ source (regex p) = source (regex q)
  /\ global (regex p) = global (regex q)
  /\ multiline (regex p) = multiline (regex q)
  /\ dotAll (regex p) = dotAll (regex q).

Definition withCursor (i : nat) (p : Pattern) : Pattern :=
  mkPattern (setLastIndex i (regex p)) (languages p).

(** The match of [r] that starts at offset [i] of [s], by its length. *)
Definition matchAt (r : RegExp.t) (s : jsstring) (i : nat) : option nat :=
  matcher r (charBefore s i) (skipn i s).

(** A range of a match of [r] in [s] that starts at offset [j] or later. *)
Definition rangeOf (r : RegExp.t) (s : jsstring) (j : nat) (rg : Range)
  : Prop :=
  j <= range_start rg
  /\ range_start rg + minLength (source r) <= range_end rg <= List.length s
  /\ matchAt r s (range_start rg) = Some (range_end rg - range_start rg).

(** A range that one applicable pattern of the table matches from its start
    to its end, inside the text and not empty. *)
Definition tokenOf (ps : list Pattern) (languageId : string) (t : jsstring)
  (rg : Range) : Prop :=
  range_start rg < range_end rg <= List.length t
  /\ exists p,
       In p ps /\ applies p languageId = true
       /\ matchAt (regex p) t (range_start rg)
          = Some (range_end rg - range_start rg).

(** The text of the range begins with a character that is not whitespace. *)
Definition visibleStart (t : jsstring) (rg : Range) : Prop :=
  exists c, nth_error t (range_start rg) = Some c /\ isSpace c = false.


(** The characters a match of a pattern can end with, where the last terms
    of the pattern tell: a pattern character, or a pattern character with
    an optional pattern character behind it. *)
Definition closingOf (ts : list term) : option (list char) :=
  match rev ts with
  | Atom (Chr c) One :: _ => Some [c]
  | Atom (Chr d) Opt :: Atom (Chr c) One :: _ => Some [c; d]
  | _ => None
  end.

(** A pattern whose every match ends with a character that is not
    whitespace. *)
Definition endsVisibly (pattern : Pattern) : bool :=
  match closingOf (source (regex pattern)) with
  | Some cs => forallb (fun c => negb (isSpace c)) cs
  | None => false
  end.

(** The highlight rules that are not of that kind: [puts] and [echo], which
    end [[^;]*;?], and the two line comments, which end [.*$]. *)
Definition openEndedPatterns : list Pattern :=
  [ (* /puts?\s+[^;]*;?/g *)
    mkPattern
      (flags_g (lits "put"
                ++ [Atom (Chr (ch "s")) Opt; Atom Space Plus; manyNot ";";
                    Atom (Chr (ch ";")) Opt]))
      (Some ["ruby"]);
    (* /echo\s+[^;]*;?/g *)
    mkPattern
      (flags_g (lits "echo"
                ++ [Atom Space Plus; manyNot ";"; Atom (Chr (ch ";")) Opt]))
      (Some ["php"]);
    (* /\/\/.*$/gm *)
    mkPattern (flags_gm (lits "//" ++ [Atom Dot Star; Dollar])) (Some cLike);
    (* /#.*$/gm *)
    mkPattern (flags_gm (lits "#" ++ [Atom Dot Star; Dollar]))
      (Some hashLike) ].

(** A continuation whose match is not empty and ends with one of [cs]. *)
Definition endsAmong (cs : list char) (k : cont) : Prop :=
  forall prev s n,
    k prev s = Some n ->
    1 <= n /\ exists c, In c cs /\ nth_error s (n - 1) = Some c.

(** The text of the range ends with a character that is not whitespace. *)
Definition visibleEnd (t : jsstring) (rg : Range) : Prop :=
  exists c, nth_error t (range_end rg - 1) = Some c /\ isSpace c = false.

(** A range of the highlight path: inside the text and not empty, the match
    of one applicable pattern of the table from its start to its end,
    without whitespace at its start, and without whitespace at its end
    when the pattern is not an open-ended one. *)
Definition spanOf (ps : list Pattern) (languageId : string) (t : jsstring)
  (rg : Range) : Prop :=
  exists p,
    In p ps /\ applies p languageId = true
    /\ range_start rg < range_end rg <= List.length t
    /\ matchAt (regex p) t (range_start rg)
       = Some (range_end rg - range_start rg)
    /\ visibleStart t rg
    /\ (endsVisibly p = true -> visibleEnd t rg).

(** The inputs of the examples. *)
Definition commentedCall : jsstring := str "x = 1; // console.log(x);".


Definition callThenCode : jsstring :=
  str "console.log(1);" ++ [LF] ++ str "x = 2;".

(** Three double quotes, [debug notes], three double quotes and
    [print("hi")], each on a line of its own. *)
Definition docstringThenPrint : jsstring :=
  [DQUOTE; DQUOTE; DQUOTE; LF] ++ str "debug notes"
  ++ [LF; DQUOTE; DQUOTE; DQUOTE; LF]
  ++ str "print(" ++ [DQUOTE] ++ str "hi" ++ [DQUOTE] ++ str ")".

Definition twoBlankLines : jsstring := [LF; LF] ++ str "x".

Definition commentWithBlank : jsstring := str "// a ".

(** ** The helpers of the git commands

    [isCleanableFile], the language selection of [cleanFile], the line
    count of [countDebugLines] and the parsing of git's output in
    [cleanBeforeCommit], [showGitCleanStatus] and [cleanStagedFiles]. *)

(** The string methods these helpers call. *)
Module Str.

(** [s.startsWith(p)] *)
Fixpoint startsWith (s p : jsstring) {struct p} : bool :=
  match p with
  | [] => true
  | c :: p' =>
      match s with
      | d :: s' => (d =? c)%N && startsWith s' p'
      | [] => false
      end
  end.

(** [s.includes(sub)]: [sub] stands at some position of [s]. *)
Fixpoint includes (s sub : jsstring) : bool :=
  startsWith s sub
  || match s with
     | [] => false
     | _ :: s' => includes s' sub
     end.

(** [s.endsWith(suffix)]: the last [suffix.length] characters of [s] are
    [suffix]; false when [s] is the shorter one. *)
Definition endsWith (s suffix : jsstring) : bool :=
  (List.length suffix <=? List.length s)%nat
  && startsWith (skipn (List.length s - List.length suffix) s) suffix.

(** [s.trim()] removes WhiteSpace and LineTerminator characters, the
    characters of [\s], from both ends. *)
Fixpoint trimStart (s : jsstring) : jsstring :=
  match s with
  | c :: s' => if isSpace c then trimStart s' else s
  | [] => []
  end.

Definition trimEnd (s : jsstring) : jsstring := rev (trimStart (rev s)).

Definition trim (s : jsstring) : jsstring := trimEnd (trimStart s).

(** [s.split(sep)] for a separator of one character: the pieces between
    the separators, of which there is always at least one. *)
Fixpoint split (sep : char) (s : jsstring) : list jsstring :=
  match s with
  | [] => [[]]
  | c :: s' =>
      if (c =? sep)%N then [] :: split sep s'
      else
        match split sep s' with
        | piece :: pieces => (c :: piece) :: pieces
        | [] => [[c]]
        end
  end.

(** [s.substring(i)] *)
Definition substringFrom (s : jsstring) (i : nat) : jsstring := skipn i s.

End Str.

Definition cleanableExtensions : list string :=
  [".js"; ".ts"; ".jsx"; ".tsx"; ".py"; ".java"; ".cpp"; ".c"; ".php"; ".rb"].

(** [cleanableExtensions.some(ext => fileName.endsWith(ext))] *)
Definition isCleanableFile (fileName : jsstring) : bool :=
  existsb (fun ext => Str.endsWith fileName (str ext)) cleanableExtensions.

(** The own properties of [langMap] in [cleanFile]. *)
Definition langMap : list (string * string) :=
  [ ("js", "javascript"); ("ts", "typescript"); ("jsx", "javascript");
    ("tsx", "typescript"); ("py", "python"); ("java", "java");
    ("cpp", "cpp"); ("c", "c"); ("php", "php"); ("rb", "ruby") ].

Fixpoint jsEqb (a b : jsstring) : bool :=
  match a, b with
  | [], [] => true
  | c :: a', d :: b' => (c =? d)%N && jsEqb a' b'
  | _, _ => false
  end.

Fixpoint ownProperty (map : list (string * string)) (key : jsstring)
  : option string :=
  match map with
  | [] => None
  | (k, v) :: map' => if jsEqb key (str k) then Some v else ownProperty map' key
  end.

(** The properties every object inherits from [Object.prototype]; each is
    a function or, for [__proto__], an object. *)
Definition objectPrototypeKeys : list string :=
  [ "constructor"; "hasOwnProperty"; "isPrototypeOf";
    "propertyIsEnumerable"; "toLocaleString"; "toString"; "valueOf";
    "__proto__"; "__defineGetter__"; "__defineSetter__";
    "__lookupGetter__"; "__lookupSetter__" ].

(** The value of [languageId] in [cleanFile]: a string, or the value of a
    property of [Object.prototype]. *)
Inductive LanguageValue :=
| LanguageTag (tag : string)
| PrototypeValue (key : string).

(** [langMap[fileExtension] || 'plaintext']: the own property of the key;
    without one, the property that [langMap] inherits, which is truthy;
    without that, [undefined], for which ['plaintext'] stands in. *)
Definition languageIdOf (fileExtension : jsstring) : LanguageValue :=
  match ownProperty langMap fileExtension with
  | Some languageId => LanguageTag languageId
  | None =>
      match find (fun key => jsEqb fileExtension (str key))
              objectPrototypeKeys with
      | Some key => PrototypeValue key
      | None => LanguageTag "plaintext"
      end
  end.

(** [pattern.languages.includes(languageId)] for such a value: a value that
    is no string equals no language of a rule. *)
Definition appliesTo (pattern : Pattern) (languageId : LanguageValue)
  : bool :=
  match languageId with
  | LanguageTag tag => applies pattern tag
  | PrototypeValue _ =>
      match languages pattern with
      | None => true
      | Some _ => false
      end
  end.

(** The debug lines of [countDebugLines]. *)
Definition isDebugLine (line : jsstring) : bool :=
  Str.includes line (str "console.log")
  || Str.includes line (str "print(")
  || Str.includes line (str "printf(")
  || Str.startsWith (Str.trim line) (str "//")
  || Str.startsWith (Str.trim line) (str "#").

(** [countDebugLines], on what [readFileSync] gave: the content, or nothing
    when it threw, which the [catch] turns into 0. *)
Definition countDebugLines (file : option jsstring) : nat :=
  match file with
  | Some content =>
      let lines := Str.split LF content in
      List.length (filter isDebugLine lines)
  | None => 0
  end.

(** [stdout.trim().split('\n').filter(file => file.length > 0)]: the
    [modifiedFiles] of [cleanBeforeCommit] and the [files] of
    [showGitCleanStatus]. *)
Definition modifiedFiles (stdout : jsstring) : list jsstring :=
  filter (fun file => (0 <? List.length file)%nat)
    (Str.split LF (Str.trim stdout)).

(** [/^[AMRCD]/] *)
Definition stagedLine : RegExp.t :=
  flags_none
    [Caret;
     Atom (Class false
             [MChar (ch "A"); MChar (ch "M"); MChar (ch "R"); MChar (ch "C");
              MChar (ch "D")]) One].

(** The [stagedFiles] of [cleanStagedFiles]. *)
Definition stagedFiles (stdout : jsstring) : list jsstring :=
  map (fun line => Str.substringFrom line 3)
    (filter (fun line => test stagedLine line)
       (filter (fun line => (0 <? List.length line)%nat)
          (Str.split LF (Str.trim stdout)))).

(** ** The editor commands

    The state the handlers of [activate] read and write: the two globals
    of the extension, and of the host the documents, the active editor and
    the decorations set on editors.  A document is named by its uri.  A
    decoration type is the number the host made it with. *)
Record State := mkState {
  documents : string -> jsstring;          (* document.getText() *)
  languageIdOfDocument : string -> string; (* document.languageId *)
  activeTextEditor : option string;
  rendered : list (nat * (string * list Range));
  nextDecorationType : nat;
  notifications : list string;
  highlightDecorations : list nat;
  lastCleanEdit : option (string * jsstring)
}.

(** [decoration.dispose()]: the host takes the decoration off every
    editor. *)
Definition dispose (decoration : nat)
  (shown : list (nat * (string * list Range)))
  : list (nat * (string * list Range)) :=
  filter (fun entry => negb (fst entry =? decoration)%nat) shown.

(** [clearHighlights] *)
Definition clearHighlights (st : State) : State :=
  mkState (documents st) (languageIdOfDocument st) (activeTextEditor st)
    (fold_left (fun shown decoration => dispose decoration shown)
       (highlightDecorations st) (rendered st))
    (nextDecorationType st) (notifications st) [] (lastCleanEdit st).

(** [editor.setDecorations(type, ranges)]: the ranges of the type on that
    editor are replaced. *)
Definition setDecorations (uri : string) (decoration : nat)
  (ranges : list Range) (shown : list (nat * (string * list Range)))
  : list (nat * (string * list Range)) :=
  (decoration, (uri, ranges))
  :: filter (fun entry =>
               negb ((fst entry =? decoration)%nat
                     && String.eqb (fst (snd entry)) uri)) shown.

(** [highlightPatterns(editor)] with its effects: the old decorations are
    cleared, two decoration types are made and recorded, and each gets its
    ranges.  The scans run on one unit of fuel more than the text is
    long. *)
Definition highlightEditor (uri : string) (st : State) : option State :=
  let st := clearHighlights st in
  let text := documents st uri in
  let languageId := languageIdOfDocument st uri in
  let printDecoration := nextDecorationType st in
  let commentDecoration := S (nextDecorationType st) in
  '(printRanges, commentRanges) <-
    highlightPatterns (S (List.length text)) text languageId ;;
  Some (mkState (documents st) (languageIdOfDocument st)
          (activeTextEditor st)
          (setDecorations uri commentDecoration commentRanges
             (setDecorations uri printDecoration printRanges (rendered st)))
          (S (S (nextDecorationType st))) (notifications st)
          [printDecoration; commentDecoration] (lastCleanEdit st)).

(** The handler of [codesanitizer.toggleHighlight]. *)
Definition toggleHighlight (st : State) : option State :=
  match activeTextEditor st with
  | None => Some st
  | Some uri =>
      if (0 <? List.length (highlightDecorations st))%nat
      then Some (clearHighlights st)
      else highlightEditor uri st
  end.

Section Host.

(** Whether the host raises [onDidChangeTextDocument] when an edit puts
    the second text in the place of the first. *)
Variable changeEvent : jsstring -> jsstring -> bool.

(** [vscode.workspace.applyEdit] of an edit that replaces the whole text
    of the document, and the subscription of [activate] to the change
    event. *)
Definition applyEdit (uri : string) (newText : jsstring) (st : State)
  : State :=
  let oldText := documents st uri in
  let st' :=
    mkState
      (fun u => if String.eqb u uri then newText else documents st u)
      (languageIdOfDocument st) (activeTextEditor st) (rendered st)
      (nextDecorationType st) (notifications st) (highlightDecorations st)
      (lastCleanEdit st) in
  if changeEvent oldText newText then clearHighlights st' else st'.

Definition setLastCleanEdit (edit : option (string * jsstring)) (st : State)
  : State :=
  mkState (documents st) (languageIdOfDocument st) (activeTextEditor st)
    (rendered st) (nextDecorationType st) (notifications st)
    (highlightDecorations st) edit.

Definition showWarningMessage (message : string) (st : State) : State :=
  mkState (documents st) (languageIdOfDocument st) (activeTextEditor st)
    (rendered st) (nextDecorationType st) (message :: notifications st)
    (highlightDecorations st) (lastCleanEdit st).

(** The handler of [codesanitizer.cleanAll]. *)
Definition cleanAll (st : State) : State :=
  match activeTextEditor st with
  | None => st
  | Some uri =>
      let fullText := documents st uri in
      let languageId := languageIdOfDocument st uri in
      let st := setLastCleanEdit (Some (uri, fullText)) st in
      let cleanedText := removePatterns fullText languageId in
      let st := applyEdit uri cleanedText st in
      clearHighlights st
  end.

(** The handler of [codesanitizer.undoClean]. *)
Definition undoClean (st : State) : State :=
  match lastCleanEdit st with
  | None => showWarningMessage "Nothing to undo" st
  | Some (uri, originalText) =>
      let st := applyEdit uri originalText st in
      setLastCleanEdit None st
  end.

(** What can happen to the state: a command of the user, an edit of a
    document by the user, which raises the change event, or another
    editor becoming the active one. *)
Inductive step : State -> State -> Prop :=
| StepToggle st st' : toggleHighlight st = Some st' -> step st st'
| StepClean st : step st (cleanAll st)
| StepUndo st : step st (undoClean st)
| StepEdit st uri newText :
    step st (clearHighlights
               (mkState
                  (fun u => if String.eqb u uri then newText
                            else documents st u)
                  (languageIdOfDocument st) (activeTextEditor st)
                  (rendered st) (nextDecorationType st) (notifications st)
                  (highlightDecorations st) (lastCleanEdit st)))
| StepFocus st editor :
    step st (mkState (documents st) (languageIdOfDocument st) editor
               (rendered st) (nextDecorationType st) (notifications st)
               (highlightDecorations st) (lastCleanEdit st)).

Inductive reachable (init : State) : State -> Prop :=
| ReachInit : reachable init init
| ReachStep st st' : reachable init st -> step st st' -> reachable init st'.

End Host.

(** The state at activation: no decoration, nothing to undo. *)
Definition activated (st : State) : Prop :=
  rendered st = [] /\ highlightDecorations st = []
  /\ lastCleanEdit st = None.

(** Every decoration on an editor is one [highlightDecorations] holds. *)
Definition tracked (st : State) : Prop :=
  forall entry, In entry (rendered st) ->
                In (fst entry) (highlightDecorations st).

(** ** More definitions used by the statements *)

(** [a] is [b] with characters left out. *)
Inductive Subseq : jsstring -> jsstring -> Prop :=
| SubseqNil : Subseq [] []
| SubseqKeep c a b : Subseq a b -> Subseq (c :: a) (c :: b)
| SubseqDrop c a b : Subseq a b -> Subseq a (c :: b).

(** Zero width space, non-joiner and joiner, and the byte order mark. *)
Definition isInvisible (c : char) : bool :=
  ((8203 <=? c) && (c <=? 8205) || (c =? 65279))%N.

(** Ranges that follow one another from offset [j] on without overlap. *)
Fixpoint ascending (j : nat) (ranges : list Range) : Prop :=
  match ranges with
  | [] => True
  | rg :: ranges' =>
      j <= range_start rg /\ range_start rg < range_end rg
      /\ ascending (range_end rg) ranges'
  end.

(** [names.join('\n')] *)
Fixpoint joinLines (names : list jsstring) : jsstring :=
  match names with
  | [] => []
  | [name] => name
  | name :: names' => name ++ LF :: joinLines names'
  end.

Definition allSpace (s : jsstring) : Prop :=
  Forall (fun c => isSpace c = true) s.

(** A continuation whose match is not empty and ends with [c]. *)
Definition endsIn (c : char) (k : cont) : Prop :=
  forall prev s n,
    k prev s = Some n -> 1 <= n /\ nth_error s (n - 1) = Some c.

(** A multiline rule that begins [^\s*c] for a pattern character [c] that
    is neither whitespace nor [m]. *)
Definition anchoredOff (m : char) (r : RegExp.t) : bool :=
  match source r with
  | Caret :: Atom Space Star :: Atom (Chr c) One :: _ =>
      multiline r && negb (isSpace c) && negb (c =? m)%N
  | _ => false
  end.

(** A state and a host for the examples: one JavaScript document in the
    active editor, and a host that raises the change event at every
    edit. *)
Definition oneDocument : State :=
  mkState (fun _ => callThenCode) (fun _ => "javascript")
    (Some "file:///a.js") [] 0 [] [] None.

Definition alwaysRaised : jsstring -> jsstring -> bool := fun _ _ => true.

(** ** The matcher *)

Section MatcherFacts.

Variable m_flag s_flag : bool.

Local Abbreviation one := (matchOne s_flag).
Local Abbreviation star := (matchStar s_flag).
Local Abbreviation lazy_star := (matchLazyStar s_flag).
Local Abbreviation opt := (matchOpt s_flag).

Lemma bounded_weaken lo lo' k : lo' <= lo -> bounded lo k -> bounded lo' k.
Proof.
  intros Hle Hk prev s n Hn. apply Hk in Hn. lia.
Qed.

Lemma matchOne_bounded a k lo : bounded lo k -> bounded (S lo) (one a k).
Proof.
  intros Hk prev s n. unfold matchOne.
  destruct s as [|c s']; [discriminate|].
  destruct (atomMatches s_flag a c); [|discriminate].
  destruct (k (Some c) s') as [n'|] eqn:E; [|discriminate].
  intros [= <-]. apply Hk in E. simpl. lia.
Qed.

Lemma matchStar_bounded a k lo : bounded lo k -> bounded lo (star a k).
Proof.
  intros Hk prev s. revert prev.
  induction s as [|c s' IH]; intros prev n; simpl.
  - apply Hk.
  - destruct (atomMatches s_flag a c).
    + destruct (matchStar s_flag a k (Some c) s') as [n'|] eqn:E.
      * intros [= <-]. apply IH in E. simpl. lia.
      * intros H. apply Hk in H. exact H.
    + intros H. apply Hk in H. exact H.
Qed.

Lemma matchLazyStar_bounded a k lo : bounded lo k -> bounded lo (lazy_star a k).
Proof.
  intros Hk prev s. revert prev.
  induction s as [|c s' IH]; intros prev n; simpl.
  - destruct (k prev []) as [n'|] eqn:E; [|discriminate].
    intros [= <-]. apply Hk in E. exact E.
  - destruct (k prev (c :: s')) as [n'|] eqn:E.
    + intros [= <-]. apply Hk in E. exact E.
    + destruct (atomMatches s_flag a c); [|discriminate].
      destruct (matchLazyStar s_flag a k (Some c) s') as [n'|] eqn:E';
        [|discriminate].
      intros [= <-]. apply IH in E'. simpl. lia.
Qed.

Lemma matchOpt_bounded a k lo : bounded lo k -> bounded lo (opt a k).
Proof.
  intros Hk prev s n. unfold matchOpt.
  destruct (matchOne s_flag a k prev s) as [n'|] eqn:E.
  - intros [= <-]. apply (matchOne_bounded a k lo Hk) in E. lia.
  - apply Hk.
Qed.

Lemma matchTerm_bounded t k lo :
  bounded lo k -> bounded (termMin t + lo) (matchTerm m_flag s_flag t k).
Proof.
  intros Hk. destruct t as [| |a q]; simpl.
  - intros prev s n.
    destruct (atLineStart m_flag prev); [apply Hk|discriminate].
  - intros prev s n. destruct (atLineEnd m_flag s); [apply Hk|discriminate].
  - destruct q; simpl.
    + now apply matchOne_bounded.
    + now apply matchOpt_bounded.
    + now apply matchStar_bounded.
    + now apply matchOne_bounded, matchStar_bounded.
    + now apply matchLazyStar_bounded.
Qed.

Lemma matchTerms_bounded ts :
  bounded (minLength ts) (matchTerms m_flag s_flag ts).
Proof.
  induction ts as [|t ts IH]; simpl.
  - intros prev s n [= <-]. lia.
  - now apply matchTerm_bounded.
Qed.

(** A pattern that begins with a pattern character matches only where that
    character stands. *)
Lemma matchTerms_first c ts prev s n :
  matchTerms m_flag s_flag (Atom (Chr c) One :: ts) prev s = Some n ->
  exists s', s = c :: s'.
Proof.
  simpl. unfold matchOne. destruct s as [|d s']; [discriminate|].
  simpl. destruct (N.eqb_spec d c) as [->|]; [|discriminate].
  intros _. now exists s'.
Qed.

End MatcherFacts.

Lemma matcher_bounded r : bounded (minLength (source r)) (matcher r).
Proof. apply matchTerms_bounded. Qed.

Lemma matcher_first r c prev s n :
  firstChar r = Some c -> matcher r prev s = Some n -> exists s', s = c :: s'.
Proof.
  unfold firstChar, matcher.
  destruct (source r) as [|[| |[d| | |] []] ts]; try discriminate.
  intros [= ->]. apply matchTerms_first.
Qed.

(** ** The scan, [exec] and [replace] *)

Lemma skipn_cons_inv (s : jsstring) i c rest :
  skipn i s = c :: rest -> nth_error s i = Some c /\ skipn (S i) s = rest.
Proof.
  revert s. induction i as [|i IH]; intros [|d s]; simpl; try discriminate.
  - intros [= -> ->]. now split.
  - intros H. apply IH in H. exact H.
Qed.

(** What a successful scan found: a position not before the start of the
    scan where the matcher succeeds, with the match inside the text. *)
Lemma search_found r s rest :
  forall prev i0 i n,
    rest = skipn i0 s -> prev = charBefore s i0 -> i0 <= List.length s ->
    search r prev rest i0 = Some (i, n) ->
    i0 <= i /\ matcher r (charBefore s i) (skipn i s) = Some n
    /\ minLength (source r) <= n /\ i + n <= List.length s.
Proof.
  induction rest as [|c rest IH]; intros prev i0 i n Hrest Hprev Hlen; simpl.
  - destruct (matcher r prev []) as [n'|] eqn:E; [|discriminate].
    intros [= <- <-]. subst prev. rewrite <- Hrest. rewrite E.
    apply matcher_bounded in E. simpl in E. repeat split; trivial; lia.
  - destruct (matcher r prev (c :: rest)) as [n'|] eqn:E.
    + intros [= <- <-]. subst prev. rewrite <- Hrest. rewrite E.
      apply matcher_bounded in E.
      assert (Hl : List.length (c :: rest) = List.length s - i0)
        by (rewrite Hrest; apply length_skipn).
      repeat split; trivial; lia.
    + intros H. symmetry in Hrest.
      destruct (skipn_cons_inv _ _ _ _ Hrest) as [Hnth Hskip].
      assert (Hlt : i0 < List.length s) by (apply nth_error_Some; congruence).
      apply (IH (Some c) (S i0)) in H;
        [ | now symmetry | simpl; now symmetry | lia].
      destruct H as (H1 & H2 & H3 & H4). repeat split; trivial; lia.
Qed.

(** The scan does not depend on the cursor left in the object. *)
Lemma search_setLastIndex r j prev s i :
  search (setLastIndex j r) prev s i = search r prev s i.
Proof.
  revert prev i. induction s as [|c s IH]; intros prev i; simpl;
    unfold matcher; simpl; try rewrite IH; reflexivity.
Qed.

(** A global pattern that matches nowhere leaves the text as it is. *)
Lemma replaceAllFrom_none r repl s :
  forall prev i, search r prev s i = None ->
    replaceAllFrom r repl 0 prev s = s.
Proof.
  induction s as [|c s IH]; intros prev i; simpl.
  - destruct (matcher r prev []); [discriminate|reflexivity].
  - destruct (matcher r prev (c :: s)); [discriminate|].
    intros H. f_equal. now apply (IH _ (S i)).
Qed.

Lemma replace_no_match s r repl : test r s = false -> replace s r repl = s.
Proof.
  unfold test, replace.
  destruct (search r None s 0) as [[i n]|] eqn:E; [discriminate|].
  intros _. destruct (global r); [|reflexivity].
  now apply (replaceAllFrom_none r repl s None 0).
Qed.

(** Replacing does not lengthen the text when no match is shorter than the
    replacement. *)
Lemma replaceAllFrom_length r repl :
  bounded (List.length repl) (matcher r) ->
  forall s skip prev,
    skip <= List.length s ->
    List.length (replaceAllFrom r repl skip prev s) + skip <= List.length s.
Proof.
  intros Hb. induction s as [|c s IH]; intros skip prev Hskip.
  - destruct skip as [|k]; simpl in *; [|lia].
    destruct (matcher r prev []) as [[|k]|] eqn:E; simpl; try lia.
    + apply Hb in E. rewrite length_app. simpl in *. lia.
    + apply Hb in E. simpl in E. lia.
  - destruct skip as [|k]; simpl in *.
    + destruct (matcher r prev (c :: s)) as [[|k]|] eqn:E.
      * apply Hb in E. rewrite length_app. simpl in *.
        specialize (IH 0 (Some c)). lia.
      * apply Hb in E. rewrite length_app. simpl in E.
        specialize (IH k (Some c)). lia.
      * simpl. specialize (IH 0 (Some c)). lia.
    + specialize (IH k (Some c)). lia.
Qed.

Lemma replace_length s r repl :
  List.length repl <= minLength (source r) ->
  List.length (replace s r repl) <= List.length s.
Proof.
  intros Hrepl.
  assert (Hb : bounded (List.length repl) (matcher r))
    by (eapply bounded_weaken; [exact Hrepl | apply matcher_bounded]).
  unfold replace. destruct (global r).
  - pose proof (replaceAllFrom_length r repl Hb s 0 None). lia.
  - destruct (search r None s 0) as [[i n]|] eqn:E; [|lia].
    apply (search_found r s s None 0 i n eq_refl eq_refl) in E; [|lia].
    rewrite !length_app, length_firstn, length_skipn. lia.
Qed.

Lemma applyPatterns_length ps languageId s :
  List.length (applyPatterns ps languageId s) <= List.length s.
Proof.
  unfold applyPatterns. revert s.
  induction ps as [|p ps IH]; intros s; simpl; [lia|].
  etransitivity; [apply IH|].
  destruct (applies p languageId); [|lia].
  apply replace_length. simpl. lia.
Qed.

(** Patterns that do not apply are skipped. *)
Lemma applyPatterns_none ps languageId s :
  forallb (fun p => negb (applies p languageId)) ps = true ->
  applyPatterns ps languageId s = s.
Proof.
  unfold applyPatterns. revert s.
  induction ps as [|p ps IH]; intros s; simpl; [reflexivity|].
  rewrite andb_true_iff, negb_true_iff. intros [-> H]. now apply IH.
Qed.

(** Two language tags that every pattern treats alike clean alike. *)
Lemma applyPatterns_ext ps l1 l2 s :
  forallb (fun p => Bool.eqb (applies p l1) (applies p l2)) ps = true ->
  applyPatterns ps l1 s = applyPatterns ps l2 s.
Proof.
  unfold applyPatterns. revert s.
  induction ps as [|p ps IH]; intros s; simpl; [reflexivity|].
  rewrite andb_true_iff. intros [Hp H].
  apply eqb_prop in Hp. rewrite Hp. now apply IH.
Qed.

(** Applicable patterns that match nowhere change nothing. *)
Lemma applyPatterns_quiet ps languageId s :
  forallb
    (fun p => negb (applies p languageId) || negb (test (regex p) s)) ps
  = true ->
  applyPatterns ps languageId s = s.
Proof.
  unfold applyPatterns.
  induction ps as [|p ps IH]; simpl; [reflexivity|].
  rewrite andb_true_iff, orb_true_iff, !negb_true_iff. intros [Hp H].
  destruct (applies p languageId).
  - destruct Hp as [Hp|Hp]; [discriminate|].
    rewrite (replace_no_match _ _ _ Hp). now apply IH.
  - now apply IH.
Qed.

(** ** The clean path *)

Lemma removePatterns_quiescent t languageId :
  quiescent t languageId = true -> removePatterns t languageId = t.
Proof.
  unfold quiescent. rewrite !andb_true_iff, !negb_true_iff.
  intros [[[[Hps Hblank] Htrail] Hlead] Hinv].
  unfold removePatterns, collapseBlankLines, stripTrailing,
    stripLeadingBlank, stripInvisible.
  rewrite (applyPatterns_quiet _ _ _ Hps).
  rewrite (replace_no_match _ _ _ Hblank), (replace_no_match _ _ _ Htrail),
    (replace_no_match _ _ _ Hlead), (replace_no_match _ _ _ Hinv).
  reflexivity.
Qed.









(** C2, as stated, fails: the line is not removed, and the call is still in
    the result, at the offsets it had. *)
Lemma commentedCall_not_removed :
  removePatterns commentedCall "javascript" <> []
  /\ substring (removePatterns commentedCall "javascript") 10 25
     = str "console.log(x);".
Proof. split; [vm_compute; discriminate | vm_compute; reflexivity]. Qed.

(** C2, amended: the clean path returns [x = 1; // console.log(x);]
    unchanged for [javascript]; the print rule and the line comment rule
    both ask for the call, or the comment, to begin its line. *)
Theorem commentedCall_unchanged :
  removePatterns commentedCall "javascript" = commentedCall.
Proof. vm_compute. reflexivity. Qed.

(** C3: the cleaned text is never longer than the text. *)
Theorem removePatterns_length t languageId :
  List.length (removePatterns t languageId) <= List.length t.
Proof.
  unfold removePatterns, collapseBlankLines, stripTrailing,
    stripLeadingBlank, stripInvisible.
  etransitivity; [apply replace_length; simpl; lia|].
  etransitivity; [apply replace_length; simpl; lia|].
  etransitivity; [apply replace_length; simpl; lia|].
  etransitivity; [apply replace_length; simpl; lia|].
  apply applyPatterns_length.
Qed.

(** Every removal rule names its languages. *)
Lemma patterns_restricted :
  Forall (fun p => exists ls, languages p = Some ls) patterns.
Proof. repeat constructor; eexists; reflexivity. Qed.

(** C6: for [plaintext], and for every language tag that no removal rule
    lists, the clean path is the normalization alone. *)
Theorem removePatterns_unknown_language :
  (forall t, removePatterns t "plaintext" = normalize t)
  /\ (forall t languageId,
        (forall p ls, In p patterns -> languages p = Some ls ->
                      ~ In languageId ls) ->
        applyPatterns patterns languageId t = t
        /\ removePatterns t languageId = normalize t).
Proof.
  split.
  - intros t. unfold removePatterns, normalize.
    now rewrite applyPatterns_none.
  - intros t languageId H.
    assert (Hnone : forallb (fun p => negb (applies p languageId)) patterns
                    = true).
    { apply forallb_forall. intros p Hp.
      pose proof patterns_restricted as Hr.
      rewrite Forall_forall in Hr. destruct (Hr p Hp) as [ls Hls].
      unfold applies. rewrite Hls. apply negb_true_iff.
      destruct (existsb (String.eqb languageId) ls) eqn:E; [|reflexivity].
      apply existsb_exists in E. destruct E as [l [Hin Heq]].
      apply String.eqb_eq in Heq. subst l.
      exfalso. exact (H p ls Hp Hls Hin). }
    split; [now apply applyPatterns_none|].
    unfold removePatterns, normalize. now rewrite applyPatterns_none.
Qed.

Lemma removePatterns_unknown_language_witness :
  removePatterns commentedCall "kotlin" = normalize commentedCall.
Proof.
  apply (proj2 removePatterns_unknown_language commentedCall "kotlin").
  intros p ls Hp Hls Hin.
  assert (Hex : existsb
                  (fun p => match languages p with
                            | Some ls => existsb (String.eqb "kotlin") ls
                            | None => false
                            end) patterns = true).
  { apply existsb_exists. exists p. split; [exact Hp|].
    rewrite Hls. apply existsb_exists. exists "kotlin". split; [exact Hin|].
    apply String.eqb_refl. }
  vm_compute in Hex. discriminate.
Defined.

(** C7: the docstring block followed by [print("hi")] is cleaned to the
    empty text for [python]. *)
Theorem docstringThenPrint_cleaned :
  removePatterns docstringThenPrint "python" = []
  /\ removePatterns (docstringThenPrint ++ [LF]) "python" = [].
Proof. split; vm_compute; reflexivity. Qed.

(** *** The leading blank line strip, [/^\s*\n/] *)

(** Without the [m] flag, [^] holds at the start of the text only. *)
Lemma search_leadingBlank_inside s :
  forall c i, search leadingBlank (Some c) s i = None.
Proof.
  induction s as [|d s IH]; intros c i; simpl.
  - reflexivity.
  - apply IH.
Qed.

Lemma noLeadingBlank_nil : noLeadingBlank [].
Proof. intros [|w ws] rest H; discriminate. Qed.

Lemma noLeadingBlank_cons c s :
  c <> LF -> (isSpace c = true -> noLeadingBlank s) -> noLeadingBlank (c :: s).
Proof.
  intros Hc Hs [|w ws] rest H Hws; simpl in H; injection H as -> ->.
  - now apply Hc.
  - inversion Hws as [|? ? Hw Hws']; subst.
    exact (Hs Hw ws rest eq_refl Hws').
Qed.

(** The greedy [\s*] in front of [\n]: the match is the longest run of
    whitespace from the current position that ends in a line feed. *)
Lemma leadingBlank_run s :
  forall prev,
    match matchStar false Space
            (matchOne false (Chr LF) (matchTerms false false [])) prev s with
    | Some n =>
        Forall (fun c => isSpace c = true) (firstn n s)
        /\ (exists ws, firstn n s = ws ++ [LF])
        /\ noLeadingBlank (skipn n s)
    | None => noLeadingBlank s
    end.
Proof.
  induction s as [|c s IH]; intros prev.
  - simpl. apply noLeadingBlank_nil.
  - cbn [matchStar atomMatches].
    destruct (isSpace c) eqn:Hc.
    + specialize (IH (Some c)).
      destruct (matchStar false Space _ (Some c) s) as [n|].
      * destruct IH as (Hws & [ws Hlast] & Hrest).
        cbn [firstn skipn]. split; [now constructor|].
        split; [|exact Hrest].
        exists (c :: ws). now rewrite Hlast.
      * cbn [matchOne atomMatches matchTerms option_map].
        destruct (N.eqb_spec c LF) as [->|Hne].
        -- cbn [firstn skipn]. split; [now repeat constructor|].
           split; [now exists []|exact IH].
        -- apply noLeadingBlank_cons; [exact Hne|now intros _].
    + cbn [matchOne atomMatches matchTerms option_map].
      destruct (N.eqb_spec c LF) as [->|Hne].
      * discriminate Hc.
      * apply noLeadingBlank_cons; [exact Hne|congruence].
Qed.

(** C8, as stated, fails: two blank lines at the top are both removed by the
    leading blank line strip, which does not leave the second one; the
    steps before it leave the two lines in place. *)
Lemma stripLeadingBlank_removes_two :
  stripLeadingBlank twoBlankLines = str "x"
  /\ stripLeadingBlank twoBlankLines <> [LF] ++ str "x"
  /\ stripTrailing (collapseBlankLines twoBlankLines) = twoBlankLines
  /\ removePatterns twoBlankLines "plaintext" = str "x".
Proof.
  split; [vm_compute; reflexivity|].
  split; [vm_compute; discriminate|].
  split; vm_compute; reflexivity.
Qed.

(** C8, amended: the strip removes from the top of the text the longest run
    of whitespace that ends in a line feed, that is every leading blank
    line; what is left does not begin with a blank line, and a text that
    does not begin with one is left as it is. *)
Theorem stripLeadingBlank_removes_all t :
  exists ws,
    t = ws ++ stripLeadingBlank t
    /\ Forall (fun c => isSpace c = true) ws
    /\ (ws = [] \/ exists ws', ws = ws' ++ [LF])
    /\ noLeadingBlank (stripLeadingBlank t).
Proof.
  unfold stripLeadingBlank, replace. cbn [global leadingBlank flags_none].
  pose proof (leadingBlank_run t None) as H.
  assert (Hsearch :
    search leadingBlank None t 0
    = match matchStar false Space
              (matchOne false (Chr LF) (matchTerms false false [])) None t with
      | Some n => Some (0, n)
      | None => None
      end).
  { destruct t as [|c t]; cbn [search]; unfold matcher;
      cbn [multiline dotAll source leadingBlank flags_none anySpace
           matchTerms matchTerm atLineStart].
    - now destruct (matchStar false Space _ None []).
    - destruct (matchStar false Space _ None (c :: t)); [reflexivity|].
      apply search_leadingBlank_inside. }
  rewrite Hsearch.
  destruct (matchStar false Space _ None t) as [n|].
  - destruct H as (Hws & Hlast & Hrest).
    exists (firstn n t). cbn [firstn app Nat.add].
    split; [symmetry; apply firstn_skipn|].
    split; [exact Hws|]. split; [now right|exact Hrest].
  - exists []. split; [reflexivity|]. split; [constructor|].
    split; [now left|exact H].
Qed.

(** ** The highlight path *)

Lemma matchAt_setLastIndex r j s i :
  matchAt (setLastIndex j r) s i = matchAt r s i.
Proof. reflexivity. Qed.

(** [exec] on a global pattern, from cursor [j]. *)
Lemma exec_global r j s :
  global r = true ->
  match exec (setLastIndex j r) s with
  | (Some m, r') =>
      let n := List.length (matched m) in
      j <= index m /\ matchAt r s (index m) = Some n
      /\ minLength (source r) <= n /\ index m + n <= List.length s
      /\ matched m = substring s (index m) (index m + n)
      /\ r' = setLastIndex (index m + n) r
  | (None, r') => r' = setLastIndex 0 r
  end.
Proof.
  intros Hg. unfold exec. cbn [global lastIndex setLastIndex]. rewrite Hg.
  destruct (Nat.ltb_spec (List.length s) j) as [Hlt|Hle]; [reflexivity|].
  rewrite search_setLastIndex.
  destruct (search r (charBefore s j) (skipn j s) j) as [[i n]|] eqn:E;
    [|reflexivity].
  apply (search_found r s _ _ j i n eq_refl eq_refl Hle) in E.
  destruct E as (Hji & Hm & Hmin & Hin).
  assert (Hn : List.length (firstn n (skipn i s)) = n)
    by (rewrite length_firstn, length_skipn; lia).
  cbn [index matched]. rewrite Hn.
  repeat split; trivial.
  unfold substring. f_equal. lia.
Qed.

(** The loop adds ranges of matches of its pattern, and leaves the cursor
    at 0. *)
Lemma execLoop_sound r s :
  global r = true ->
  forall fuel j ranges out r',
    execLoop fuel (setLastIndex j r) s ranges = Some (out, r') ->
    r' = setLastIndex 0 r
    /\ exists new, out = ranges ++ new /\ Forall (rangeOf r s j) new.
Proof.
  intros Hg. induction fuel as [|fuel IH]; intros j ranges out r';
    [discriminate|].
  cbn [execLoop]. pose proof (exec_global r j s Hg) as He.
  destruct (exec (setLastIndex j r) s) as [[m|] r1].
  - cbv zeta in He. destruct He as (Hj & Hm & Hmin & Hin & _ & ->).
    intros H. apply IH in H. destruct H as (-> & new & -> & Hnew).
    split; [reflexivity|].
    exists (mkRange (index m) (index m + List.length (matched m)) :: new).
    split; [now rewrite <- app_assoc|].
    constructor.
    + unfold rangeOf, positionAt. cbn [range_start range_end].
      replace (index m + List.length (matched m) - index m)
        with (List.length (matched m)) by lia.
      repeat split; trivial; lia.
    + eapply Forall_impl; [|exact Hnew].
      intros rg (H1 & H2 & H3). unfold rangeOf. repeat split; trivial; lia.
  - subst r1. intros [= <- <-]. split; [reflexivity|].
    exists []. split; [now rewrite app_nil_r|constructor].
Qed.

(** A global pattern that cannot match the empty string moves the cursor on
    at every match, so the loop ends within [length s + 1] calls of
    [exec]. *)
Lemma execLoop_total r s :
  global r = true -> 1 <= minLength (source r) ->
  forall fuel j ranges,
    0 < fuel -> List.length s < fuel + j ->
    exists out, execLoop fuel (setLastIndex j r) s ranges
                = Some (out, setLastIndex 0 r).
Proof.
  intros Hg Hmin. induction fuel as [|fuel IH]; intros j ranges Hpos Hfuel;
    [lia|].
  cbn [execLoop]. pose proof (exec_global r j s Hg) as He.
  destruct (exec (setLastIndex j r) s) as [[m|] r1].
  - cbv zeta in He. destruct He as (Hj & _ & Hn & Hin & _ & ->).
    apply IH; lia.
  - subst r1. now exists ranges.
Qed.

(** More fuel does not change the outcome of a loop that ended. *)
Lemma execLoop_more_fuel s extra :
  forall fuel r ranges res,
    execLoop fuel r s ranges = Some res ->
    execLoop (fuel + extra) r s ranges = Some res.
Proof.
  induction fuel as [|fuel IH]; intros r ranges res; [discriminate|].
  cbn [execLoop Nat.add].
  destruct (exec r s) as [[m|] r1]; [apply IH|trivial].
Qed.

Lemma forEachPattern_more_fuel s languageId fuel extra :
  forall ps ranges res,
    forEachPattern fuel s languageId ps ranges = Some res ->
    forEachPattern (fuel + extra) s languageId ps ranges = Some res.
Proof.
  induction ps as [|p ps IH]; intros ranges res; cbn [forEachPattern];
    [trivial|].
  destruct (applies p languageId).
  - destruct (execLoop fuel _ s ranges) as [[ranges1 r1]|] eqn:E;
      [|discriminate].
    rewrite (execLoop_more_fuel s extra _ _ _ _ E). cbn [bind].
    destruct (forEachPattern fuel s languageId ps ranges1) as [[rs qs]|] eqn:E';
      [|discriminate].
    now rewrite (IH _ _ E').
  - destruct (forEachPattern fuel s languageId ps ranges) as [[rs qs]|] eqn:E';
      [|discriminate].
    now rewrite (IH _ _ E').
Qed.

Lemma forEachPattern_total s languageId fuel :
  List.length s < fuel ->
  forall ps ranges,
    forallb advancing ps = true ->
    exists res, forEachPattern fuel s languageId ps ranges = Some res.
Proof.
  intros Hfuel. induction ps as [|p ps IH]; intros ranges;
    cbn [forEachPattern forallb].
  - now eexists.
  - unfold advancing at 1.
    rewrite !andb_true_iff, Nat.leb_le. intros [[Hg Hmin] Hps].
    destruct (applies p languageId).
    + destruct (execLoop_total (regex p) s Hg Hmin fuel 0 ranges) as [out ->];
        [lia|lia|].
      cbn [bind]. destruct (IH out Hps) as [[rs qs] ->]. now eexists.
    + destruct (IH ranges Hps) as [[rs qs] ->]. now eexists.
Qed.

(** Every range the table adds is the match of one of its applicable
    patterns. *)
Lemma forEachPattern_sound s languageId fuel :
  forall ps ranges out qs,
    forallb advancing ps = true ->
    forEachPattern fuel s languageId ps ranges = Some (out, qs) ->
    exists new,
      out = ranges ++ new
      /\ Forall (fun rg => exists p, In p ps /\ applies p languageId = true
                                    /\ rangeOf (regex p) s 0 rg) new.
Proof.
  induction ps as [|p ps IH]; intros ranges out qs;
    cbn [forEachPattern forallb].
  - intros _ [= <- <-]. exists []. split; [now rewrite app_nil_r|constructor].
  - rewrite andb_true_iff. intros [Hp Hps].
    assert (Hg : global (regex p) = true)
      by (unfold advancing in Hp; now apply andb_true_iff in Hp).
    destruct (applies p languageId) eqn:Ha.
    + destruct (execLoop fuel _ s ranges) as [[ranges1 r1]|] eqn:E;
        [|discriminate].
      apply (execLoop_sound (regex p) s Hg) in E.
      destruct E as (_ & new1 & -> & Hnew1). cbn [bind].
      destruct (forEachPattern fuel s languageId ps (ranges ++ new1))
        as [[rs qs']|] eqn:E'; [|discriminate].
      intros [= <- <-].
      destruct (IH _ _ _ Hps E') as (new2 & -> & Hnew2).
      exists (new1 ++ new2). split; [now rewrite app_assoc|].
      apply Forall_app. split.
      * eapply Forall_impl; [|exact Hnew1]. intros rg Hrg.
        exists p. repeat split; trivial; [now left|apply Hrg..].
      * eapply Forall_impl; [|exact Hnew2]. intros rg (q & Hq & Hrg).
        exists q. split; [now right|exact Hrg].
    + destruct (forEachPattern fuel s languageId ps ranges)
        as [[rs qs']|] eqn:E'; [|discriminate].
      intros [= <- <-].
      destruct (IH _ _ _ Hps E') as (new2 & -> & Hnew2).
      exists new2. split; [reflexivity|].
      eapply Forall_impl; [|exact Hnew2]. intros rg (q & Hq & Hrg).
      exists q. split; [now right|exact Hrg].
Qed.

(** Two language tags that every pattern of the table treats alike are
    scanned alike. *)
Lemma forEachPattern_ext s l1 l2 fuel :
  forall ps ranges,
    forallb (fun p => Bool.eqb (applies p l1) (applies p l2)) ps = true ->
    forEachPattern fuel s l1 ps ranges = forEachPattern fuel s l2 ps ranges.
Proof.
  induction ps as [|p ps IH]; intros ranges; cbn [forEachPattern forallb];
    [reflexivity|].
  rewrite andb_true_iff. intros [Hp Hps].
  apply eqb_prop in Hp. rewrite Hp.
  destruct (applies p l2).
  - destruct (execLoop fuel _ s ranges) as [[ranges1 r1]|]; [|reflexivity].
    cbn [bind]. now rewrite IH.
  - now rewrite IH.
Qed.

(** The cursors left in the RegExp objects do not reach the ranges: every
    applicable pattern is scanned from cursor 0. *)
Lemma forEachPattern_cursors s languageId fuel :
  forall ps qs ranges,
    Forall2 sameLiteral ps qs ->
    match forEachPattern fuel s languageId ps ranges,
          forEachPattern fuel s languageId qs ranges with
    | Some (out1, ps'), Some (out2, qs') =>
        out1 = out2 /\ Forall2 sameLiteral ps' qs'
    | None, None => True
    | _, _ => False
    end.
Proof.
  intros ps qs ranges H. revert ranges.
  induction H as [|p q ps qs Hpq Hrest IH]; intros ranges;
    cbn [forEachPattern].
  - split; [reflexivity|constructor].
  - destruct Hpq as (Hl & Hs & Hg & Hm & Hd).
    assert (Ha : applies p languageId = applies q languageId)
      by (unfold applies; now rewrite Hl).
    assert (Hr : setLastIndex 0 (regex p) = setLastIndex 0 (regex q))
      by (unfold setLastIndex; now rewrite Hs, Hg, Hm, Hd).
    rewrite <- Ha, <- Hr.
    destruct (applies p languageId).
    + destruct (execLoop fuel _ s ranges) as [[ranges1 r1]|]; [|exact I].
      cbn [bind]. specialize (IH ranges1).
      destruct (forEachPattern fuel s languageId ps ranges1) as [[o1 ps']|],
               (forEachPattern fuel s languageId qs ranges1) as [[o2 qs']|];
        cbn [bind]; try exact IH.
      destruct IH as [-> IH]. split; [reflexivity|].
      constructor; [|exact IH]. now repeat split.
    + specialize (IH ranges).
      destruct (forEachPattern fuel s languageId ps ranges) as [[o1 ps']|],
               (forEachPattern fuel s languageId qs ranges) as [[o2 qs']|];
        cbn [bind]; try exact IH.
      destruct IH as [-> IH]. split; [reflexivity|].
      constructor; [|exact IH]. now repeat split.
Qed.

(** [exec] writes the cursor of the object and nothing else. *)
Lemma exec_literal r s :
  exists j, snd (exec r s) = setLastIndex j r.
Proof.
  assert (Hr : r = setLastIndex (lastIndex r) r) by now destruct r.
  unfold exec.
  destruct (List.length s <? _)%nat; cbn [snd].
  - destruct (global r); [now exists 0|now exists (lastIndex r)].
  - destruct (search r _ _ _) as [[i n]|]; cbn [snd];
      destruct (global r); eauto.
Qed.

Lemma execLoop_literal s :
  forall fuel r ranges out r',
    execLoop fuel r s ranges = Some (out, r') ->
    exists j, r' = setLastIndex j r.
Proof.
  induction fuel as [|fuel IH]; intros r ranges out r'; [discriminate|].
  cbn [execLoop]. destruct (exec_literal r s) as [j Hj].
  destruct (exec r s) as [[m|] r1]; cbn [snd] in Hj; subst r1.
  - intros H. apply IH in H. destruct H as [j' ->]. now exists j'.
  - intros [= <- <-]. now exists j.
Qed.

(** A scan leaves the patterns of the table as they were, cursors apart. *)
Lemma forEachPattern_sameLiteral s languageId fuel :
  forall ps ranges out qs,
    forEachPattern fuel s languageId ps ranges = Some (out, qs) ->
    Forall2 sameLiteral ps qs.
Proof.
  induction ps as [|p ps IH]; intros ranges out qs; cbn [forEachPattern].
  - intros [= <- <-]. constructor.
  - destruct (applies p languageId).
    + destruct (execLoop fuel _ s ranges) as [[ranges1 r1]|] eqn:E;
        [|discriminate].
      apply execLoop_literal in E. destruct E as [j ->]. cbn [bind].
      destruct (forEachPattern fuel s languageId ps ranges1)
        as [[rs qs']|] eqn:E'; [|discriminate].
      intros [= <- <-]. constructor; [now repeat split|].
      exact (IH _ _ _ E').
    + destruct (forEachPattern fuel s languageId ps ranges)
        as [[rs qs']|] eqn:E'; [|discriminate].
      intros [= <- <-]. constructor; [now repeat split|].
      exact (IH _ _ _ E').
Qed.

Lemma printPatterns_advancing : forallb advancing printPatterns = true.
Proof. reflexivity. Qed.

Lemma commentPatterns_advancing : forallb advancing commentPatterns = true.
Proof. reflexivity. Qed.

(** The ranges of a table of global patterns that begin with a pattern
    character other than whitespace and cannot match the empty string. *)
Lemma getRangesForPatterns_tokens ps fuel t languageId out qs :
  forallb advancing ps = true ->
  forallb startsVisibly ps = true ->
  getRangesForPatterns fuel t ps languageId = Some (out, qs) ->
  Forall (fun rg => tokenOf ps languageId t rg /\ visibleStart t rg) out.
Proof.
  intros Hadv Hvis H. unfold getRangesForPatterns in H.
  apply (forEachPattern_sound _ _ _ _ _ _ _ Hadv) in H.
  destruct H as (new & -> & Hnew). cbn [app].
  eapply Forall_impl; [|exact Hnew].
  intros rg (p & Hp & Ha & Hj & Hlen & Hm).
  rewrite forallb_forall in Hadv, Hvis.
  specialize (Hadv p Hp). specialize (Hvis p Hp).
  unfold advancing in Hadv. rewrite andb_true_iff, Nat.leb_le in Hadv.
  split.
  - split; [lia|]. exists p. now repeat split.
  - unfold startsVisibly in Hvis.
    destruct (firstChar (regex p)) as [c|] eqn:Hc; [|discriminate].
    destruct (matcher_first _ _ _ _ _ Hc Hm) as [rest Hrest].
    apply skipn_cons_inv in Hrest. exists c.
    split; [apply Hrest|now apply negb_true_iff].
Qed.

(** C4, as stated, fails: the range of a line comment runs to the end of its
    line and takes the blank in front of the line end with it. *)
Lemma lineComment_range_ends_in_blank :
  highlightPatterns 6 commentWithBlank "javascript"
  = Some ([], [mkRange 0 5])
  /\ substring commentWithBlank 0 5 = commentWithBlank
  /\ isSpace (last (substring commentWithBlank 0 5) 0%N) = true.
Proof. repeat split; vm_compute; reflexivity. Qed.

(** *** The last character of a match *)

Section LastCharacters.

Variable m_flag s_flag : bool.
Variable cs : list char.

Lemma endsAmong_step d s n :
  (1 <= n /\ exists c, In c cs /\ nth_error s (n - 1) = Some c) ->
  1 <= S n /\ exists c, In c cs /\ nth_error (d :: s) (S n - 1) = Some c.
Proof.
  intros [Hn [c [Hc Hnth]]]. split; [lia|]. exists c. split; [exact Hc|].
  destruct n as [|n]; [lia|]. simpl in *. now rewrite Nat.sub_0_r in *.
Qed.

Lemma endsAmong_matchOne a k :
  endsAmong cs k -> endsAmong cs (matchOne s_flag a k).
Proof.
  intros Hk prev s n. unfold matchOne.
  destruct s as [|d s]; [discriminate|].
  destruct (atomMatches s_flag a d); [|discriminate].
  destruct (k (Some d) s) as [n'|] eqn:E; [|discriminate].
  intros [= <-]. apply endsAmong_step. exact (Hk _ _ _ E).
Qed.

Lemma endsAmong_matchStar a k :
  endsAmong cs k -> endsAmong cs (matchStar s_flag a k).
Proof.
  intros Hk prev s. revert prev.
  induction s as [|d s IH]; intros prev n; simpl; [apply Hk|].
  destruct (atomMatches s_flag a d); [|apply Hk].
  destruct (matchStar s_flag a k (Some d) s) as [n'|] eqn:E; [|apply Hk].
  intros [= <-]. apply endsAmong_step. exact (IH _ _ E).
Qed.

Lemma endsAmong_matchLazyStar a k :
  endsAmong cs k -> endsAmong cs (matchLazyStar s_flag a k).
Proof.
  intros Hk prev s. revert prev.
  induction s as [|d s IH]; intros prev n; simpl.
  - destruct (k prev []) as [n'|] eqn:E; [|discriminate].
    intros [= <-]. exact (Hk _ _ _ E).
  - destruct (k prev (d :: s)) as [n'|] eqn:E.
    + intros [= <-]. exact (Hk _ _ _ E).
    + destruct (atomMatches s_flag a d); [|discriminate].
      destruct (matchLazyStar s_flag a k (Some d) s) as [n'|] eqn:E';
        [|discriminate].
      intros [= <-]. apply endsAmong_step. exact (IH _ _ E').
Qed.

Lemma endsAmong_matchOpt a k :
  endsAmong cs k -> endsAmong cs (matchOpt s_flag a k).
Proof.
  intros Hk prev s n. unfold matchOpt.
  destruct (matchOne s_flag a k prev s) as [n'|] eqn:E.
  - intros [= <-]. exact (endsAmong_matchOne a k Hk _ _ _ E).
  - apply Hk.
Qed.

Lemma endsAmong_matchTerm t k :
  endsAmong cs k -> endsAmong cs (matchTerm m_flag s_flag t k).
Proof.
  intros Hk. destruct t as [| |a q]; simpl.
  - intros prev s n.
    destruct (atLineStart m_flag prev); [apply Hk|discriminate].
  - intros prev s n. destruct (atLineEnd m_flag s); [apply Hk|discriminate].
  - destruct q; simpl.
    + now apply endsAmong_matchOne.
    + now apply endsAmong_matchOpt.
    + now apply endsAmong_matchStar.
    + now apply endsAmong_matchOne, endsAmong_matchStar.
    + now apply endsAmong_matchLazyStar.
Qed.

Lemma endsAmong_app pre tail :
  endsAmong cs (matchTerms m_flag s_flag tail) ->
  endsAmong cs (matchTerms m_flag s_flag (pre ++ tail)).
Proof.
  intros H. induction pre as [|t pre IH]; simpl; [exact H|].
  now apply endsAmong_matchTerm.
Qed.

End LastCharacters.

Lemma closingOf_sound m_flag s_flag ts cs :
  closingOf ts = Some cs -> endsAmong cs (matchTerms m_flag s_flag ts).
Proof.
  unfold closingOf. rewrite <- (rev_involutive ts) at 2.
  destruct (rev ts) as [|[| |[c| | |] []] rest]; try discriminate.
  - intros [= <-]. simpl rev. apply endsAmong_app.
    intros prev s n. simpl. unfold matchOne.
    destruct s as [|d s]; [discriminate|]. simpl.
    destruct (N.eqb_spec d c) as [->|]; [|discriminate].
    intros [= <-]. split; [lia|]. exists c. simpl. tauto.
  - destruct rest as [|[| |[c'| | |] []] rest]; try discriminate.
    intros [= <-]. simpl rev. rewrite <- app_assoc. apply endsAmong_app.
    intros prev s n. simpl. unfold matchOne at 1.
    destruct s as [|d s]; [discriminate|]. simpl.
    destruct (N.eqb_spec d c') as [->|]; [|discriminate].
    unfold matchOpt, matchOne. destruct s as [|e s]; simpl.
    + intros [= <-]. split; [lia|]. exists c'. simpl. tauto.
    + destruct (N.eqb_spec e c) as [->|]; simpl; intros [= <-];
        (split; [lia|]).
      * exists c. simpl. tauto.
      * exists c'. simpl. tauto.
Qed.

(** The ranges of a table, with what is known of their first and last
    characters. *)
Lemma getRangesForPatterns_spans ps fuel t languageId out qs :
  forallb advancing ps = true ->
  forallb startsVisibly ps = true ->
  getRangesForPatterns fuel t ps languageId = Some (out, qs) ->
  Forall (spanOf ps languageId t) out.
Proof.
  intros Hadv Hvis H.
  apply (getRangesForPatterns_tokens ps fuel t languageId out qs Hadv Hvis)
    in H.
  eapply Forall_impl; [|exact H].
  intros rg [[Hin (p & Hp & Ha & Hm)] Hstart].
  exists p. repeat split; trivial; try lia.
  unfold endsVisibly.
  destruct (closingOf (source (regex p))) as [cs|] eqn:Hcs; [|discriminate].
  intros Hcsv. rewrite forallb_forall in Hcsv.
  apply (closingOf_sound (multiline (regex p)) (dotAll (regex p))) in Hcs.
  apply Hcs in Hm. destruct Hm as [Hn [c [Hc Hnth]]].
  exists c. split; [|now apply negb_true_iff, Hcsv].
  rewrite nth_error_skipn in Hnth. rewrite <- Hnth. f_equal. lia.
Qed.

(** Each of the four open-ended rules does take whitespace at the end of
    its match. *)
Example open_ended_rules_take_blanks :
  highlightPatterns 9 (str "puts x ") "ruby" = Some ([mkRange 0 7], [])
  /\ highlightPatterns 9 (str "echo x ") "php" = Some ([mkRange 0 7], [])
  /\ highlightPatterns 9 (str "// a ") "go" = Some ([], [mkRange 0 5])
  /\ highlightPatterns 9 (str "# a ") "yaml" = Some ([], [mkRange 0 4]).
Proof. repeat split; vm_compute; reflexivity. Qed.

(** C4, amended: every range of the highlight path, print or comment, lies
    inside the text, is not empty, is the match of one applicable pattern
    of its table from its start to its end, and begins with a character
    that is not whitespace; it ends with a character that is not
    whitespace as well, unless its pattern is one of four: [puts], [echo]
    and the two line comments [//] and [#], whose matches run on over
    whitespace. *)
Theorem highlightPatterns_ranges_are_tokens
  fuel t languageId printRanges commentRanges :
  highlightPatterns fuel t languageId = Some (printRanges, commentRanges) ->
  Forall (spanOf printPatterns languageId t) printRanges
  /\ Forall (spanOf commentPatterns languageId t) commentRanges
  /\ filter (fun p => negb (endsVisibly p)) (printPatterns ++ commentPatterns)
     = openEndedPatterns.
Proof.
  unfold highlightPatterns.
  destruct (getRangesForPatterns fuel t printPatterns languageId)
    as [[prs ps1]|] eqn:E1; [|discriminate]. cbn [bind].
  destruct (getRangesForPatterns fuel t commentPatterns languageId)
    as [[crs ps2]|] eqn:E2; [|discriminate]. cbn [bind].
  intros [= <- <-]. repeat split.
  - now apply (getRangesForPatterns_spans printPatterns fuel t languageId
                 prs ps1).
  - now apply (getRangesForPatterns_spans commentPatterns fuel t languageId
                 crs ps2).
Qed.

Lemma highlightPatterns_ranges_are_tokens_witness :
  Forall (spanOf printPatterns "javascript" commentedCall) [mkRange 10 25]
  /\ Forall (spanOf commentPatterns "javascript" commentedCall)
       [mkRange 7 25]
  /\ filter (fun p => negb (endsVisibly p)) (printPatterns ++ commentPatterns)
     = openEndedPatterns.
Proof.
  apply (highlightPatterns_ranges_are_tokens 26 commentedCall "javascript").
  vm_compute. reflexivity.
Defined.

(** C5: both entry points return on every text and language tag.  The clean
    path is a function defined by recursion on the text.  The loops of the
    highlight path end within [length t + 1] calls of [exec] each, and more
    fuel gives the same ranges, since no highlight pattern matches the
    empty string. *)
Theorem entry_points_total t languageId :
  (exists cleaned, removePatterns t languageId = cleaned)
  /\ (exists ranges,
        forall fuel, List.length t < fuel ->
                     highlightPatterns fuel t languageId = Some ranges)
  /\ (forall p prev s,
        In p (printPatterns ++ commentPatterns) ->
        matcher (regex p) prev s <> Some 0).
Proof.
  split; [now eexists|]. split.
  - destruct (forEachPattern_total t languageId (S (List.length t))
                (Nat.lt_succ_diag_r _) printPatterns []
                printPatterns_advancing) as [[prs ps1] H1].
    destruct (forEachPattern_total t languageId (S (List.length t))
                (Nat.lt_succ_diag_r _) commentPatterns []
                commentPatterns_advancing) as [[crs ps2] H2].
    exists (prs, crs). intros fuel Hfuel.
    replace fuel with (S (List.length t) + (fuel - S (List.length t)))
      by lia.
    unfold highlightPatterns, getRangesForPatterns.
    rewrite (forEachPattern_more_fuel _ _ _ _ _ _ _ H1). cbn [bind].
    rewrite (forEachPattern_more_fuel _ _ _ _ _ _ _ H2). reflexivity.
  - intros p prev s Hp Hm.
    assert (Hadv : forallb advancing (printPatterns ++ commentPatterns)
                   = true) by reflexivity.
    rewrite forallb_forall in Hadv. specialize (Hadv p Hp).
    unfold advancing in Hadv. rewrite andb_true_iff, Nat.leb_le in Hadv.
    apply matcher_bounded in Hm. lia.
Qed.

Lemma entry_points_total_witness :
  (exists ranges,
     highlightPatterns 26 commentedCall "javascript" = Some ranges)
  /\ matcher (regex (mkPattern
                (flags_gm (lits "//" ++ [Atom Dot Star; Dollar]))
                (Some cLike))) None [] <> Some 0.
Proof.
  destruct (entry_points_total commentedCall "javascript")
    as (_ & [ranges Hranges] & Hnonempty).
  split.
  - exists ranges. apply Hranges. vm_compute. lia.
  - apply Hnonempty. vm_compute. tauto.
Defined.

(** Without the reset, a cursor left behind does cut the scan short: the
    loop started at cursor 3 misses the comment of the first line. *)
Example stale_cursor_truncates :
  let r := flags_gm (lits "#" ++ [Atom Dot Star; Dollar]) in
  let t := str "#a" ++ [LF] ++ str "#b" in
  option_map fst (execLoop 6 (setLastIndex 3 r) t []) = Some [mkRange 3 5]
  /\ option_map fst (execLoop 6 (setLastIndex 0 r) t [])
     = Some [mkRange 0 2; mkRange 3 5].
Proof. split; vm_compute; reflexivity. Qed.

(** C9: the ranges of [getRangesForPatterns] do not depend on the cursors
    the RegExp objects of the table come with, and a second call on the
    objects the first call left behind returns the ranges of the first. *)
Theorem getRangesForPatterns_resets_cursor :
  (forall fuel t languageId ps qs,
     Forall2 sameLiteral ps qs ->
     option_map fst (getRangesForPatterns fuel t ps languageId)
     = option_map fst (getRangesForPatterns fuel t qs languageId))
  /\ (forall fuel t languageId ps ranges ps',
        getRangesForPatterns fuel t ps languageId = Some (ranges, ps') ->
        option_map fst (getRangesForPatterns fuel t ps' languageId)
        = Some ranges).
Proof.
  assert (Hcur : forall fuel t languageId ps qs,
             Forall2 sameLiteral ps qs ->
             option_map fst (getRangesForPatterns fuel t ps languageId)
             = option_map fst (getRangesForPatterns fuel t qs languageId)).
  { intros fuel t languageId ps qs H. unfold getRangesForPatterns.
    pose proof (forEachPattern_cursors t languageId fuel ps qs [] H) as Hc.
    destruct (forEachPattern fuel t languageId ps []) as [[o1 ps']|],
             (forEachPattern fuel t languageId qs []) as [[o2 qs']|];
      cbn [option_map fst]; try contradiction; [|reflexivity].
    now destruct Hc as [-> _]. }
  split; [exact Hcur|].
  intros fuel t languageId ps ranges ps' H.
  rewrite <- (Hcur fuel t languageId ps ps').
  - now rewrite H.
  - exact (forEachPattern_sameLiteral _ _ _ _ _ _ _ H).
Qed.

Lemma getRangesForPatterns_resets_cursor_witness :
  option_map fst
    (getRangesForPatterns 6 commentWithBlank
       (map (withCursor 3) commentPatterns) "javascript")
  = option_map fst
      (getRangesForPatterns 6 commentWithBlank commentPatterns "javascript")
  /\ match getRangesForPatterns 6 commentWithBlank commentPatterns
             "javascript" with
     | Some (ranges, ps') =>
         ranges = [mkRange 0 5]
         /\ option_map fst
              (getRangesForPatterns 6 commentWithBlank ps' "javascript")
            = Some ranges
     | None => False
     end.
Proof.
  destruct getRangesForPatterns_resets_cursor as [Hcur Hagain].
  split.
  - apply Hcur. vm_compute. repeat constructor.
  - destruct (getRangesForPatterns 6 commentWithBlank commentPatterns
                "javascript") as [[ranges ps']|] eqn:E.
    + split; [vm_compute in E; congruence|].
      exact (Hagain _ _ _ _ _ _ E).
    + vm_compute in E. discriminate.
Defined.

(** Every rule of the three tables lists [javascript] and [typescript]
    together or not at all. *)
Lemma javascript_typescript_listed_together :
  forallb
    (fun p => Bool.eqb (applies p "javascript") (applies p "typescript"))
    (patterns ++ printPatterns ++ commentPatterns) = true.
Proof. reflexivity. Qed.

(** C10: [javascript] and [typescript] are cleaned alike and highlighted
    alike. *)
Theorem javascript_typescript_alike t :
  removePatterns t "javascript" = removePatterns t "typescript"
  /\ forall fuel,
       highlightPatterns fuel t "javascript"
       = highlightPatterns fuel t "typescript".
Proof.
  pose proof javascript_typescript_listed_together as H.
  rewrite !forallb_app, !andb_true_iff in H. destruct H as (Hr & Hp & Hc).
  split.
  - unfold removePatterns.
    now rewrite (applyPatterns_ext patterns "javascript" "typescript" t Hr).
  - intros fuel. unfold highlightPatterns, getRangesForPatterns.
    now rewrite (forEachPattern_ext t _ _ fuel printPatterns [] Hp),
      (forEachPattern_ext t _ _ fuel commentPatterns [] Hc).
Qed.

(** ** The helpers of the git commands *)

Lemma startsWith_app s p :
  Str.startsWith s p = true <-> exists rest, s = p ++ rest.
Proof.
  revert s. induction p as [|c p IH]; intros s; simpl.
  - split; [now exists s|reflexivity].
  - destruct s as [|d s].
    + split; [discriminate|now intros [rest H]].
    + rewrite andb_true_iff, N.eqb_eq, IH. split.
      * intros [-> [rest ->]]. now exists rest.
      * intros [rest [= -> ->]]. split; [reflexivity|now exists rest].
Qed.

Lemma endsWith_app s suffix :
  Str.endsWith s suffix = true <-> exists stem, s = stem ++ suffix.
Proof.
  unfold Str.endsWith. rewrite andb_true_iff, Nat.leb_le, startsWith_app.
  split.
  - intros [Hlen [rest Hrest]].
    exists (firstn (List.length s - List.length suffix) s).
    assert (Hl : List.length (skipn (List.length s - List.length suffix) s)
                 = List.length (suffix ++ rest)) by now rewrite Hrest.
    rewrite length_skipn, length_app in Hl.
    assert (rest = []) by (apply length_zero_iff_nil; lia). subst rest.
    rewrite app_nil_r in Hrest.
    pose proof (firstn_skipn (List.length s - List.length suffix) s) as H.
    rewrite Hrest in H. now symmetry.
  - intros [stem ->]. rewrite length_app. split; [lia|].
    replace (List.length stem + List.length suffix - List.length suffix)
      with (List.length stem + 0) by lia.
    rewrite skipn_app, Nat.add_0_r, skipn_all, Nat.sub_diag. simpl.
    exists []. now rewrite app_nil_r.
Qed.

Lemma includes_app s sub :
  Str.includes s sub = true <-> exists pre post, s = pre ++ sub ++ post.
Proof.
  induction s as [|c s IH]; simpl.
  - rewrite orb_false_r, startsWith_app. split.
    + intros [rest H]. now exists [], rest.
    + intros [[|d pre] [post H]]; [now exists post|discriminate].
  - rewrite orb_true_iff, startsWith_app, IH. split.
    + intros [[rest H]|[pre [post ->]]].
      * now exists [], rest.
      * now exists (c :: pre), post.
    + intros [[|d pre] [post H]].
      * left. now exists post.
      * right. injection H as -> ->. now exists pre, post.
Qed.

Lemma jsEqb_eq a b : jsEqb a b = true <-> a = b.
Proof.
  revert b. induction a as [|c a IH]; intros [|d b]; simpl;
    try (split; [discriminate|congruence]); [tauto|].
  rewrite andb_true_iff, N.eqb_eq, IH. split; [intros [-> ->]|intros [= -> ->]];
    auto.
Qed.

Lemma isCleanableFile_suffix fileName :
  isCleanableFile fileName = true
  <-> exists stem ext, In ext cleanableExtensions /\ fileName = stem ++ str ext.
Proof.
  unfold isCleanableFile. rewrite existsb_exists. split.
  - intros [ext [Hin H]]. apply endsWith_app in H. destruct H as [stem ->].
    now exists stem, ext.
  - intros [stem [ext [Hin ->]]]. exists ext. split; [exact Hin|].
    apply endsWith_app. now exists stem.
Qed.

(** X1: a cleanable name stays cleanable with a folder joined in front of
    it; the callers test the name git gave and clean the joined path. *)
Theorem isCleanableFile_joined folder fileName :
  isCleanableFile fileName = true ->
  isCleanableFile (folder ++ fileName) = true.
Proof.
  rewrite !isCleanableFile_suffix. intros [stem [ext [Hin ->]]].
  exists (folder ++ stem), ext. split; [exact Hin|apply app_assoc].
Qed.

Lemma isCleanableFile_joined_witness :
  isCleanableFile (str "/home/me/project/" ++ str "src/app.ts") = true.
Proof.
  apply (isCleanableFile_joined (str "/home/me/project/") (str "src/app.ts")).
  vm_compute. reflexivity.
Defined.

(** X2: the extensions [isCleanableFile] accepts and the keys of [langMap]
    in [cleanFile] are the same: each accepted extension selects a
    language tag other than [plaintext] that has a removal rule, and each
    extension for which the lookup gives a string other than [plaintext]
    makes a name cleanable.  A key that [langMap] only inherits gives no
    string, and no removal rule applies to what it gives. *)
Theorem cleanable_extensions_are_langMap_keys :
  (forall ext,
     In ext cleanableExtensions ->
     exists languageId,
       languageIdOf (Str.substringFrom (str ext) 1) = LanguageTag languageId
       /\ languageId <> "plaintext"
       /\ existsb (fun p => applies p languageId) patterns = true)
  /\ (forall stem fileExtension languageId,
        languageIdOf fileExtension = LanguageTag languageId ->
        languageId <> "plaintext" ->
        isCleanableFile (stem ++ str "." ++ fileExtension) = true)
  /\ (forall fileExtension key,
        languageIdOf fileExtension = PrototypeValue key ->
        forallb (fun p => negb (appliesTo p (PrototypeValue key))) patterns
        = true).
Proof.
  split; [|split].
  - intros ext Hin. simpl in Hin.
    repeat (destruct Hin as [<-|Hin];
            [eexists; split; [vm_compute; reflexivity|];
             split; [discriminate|vm_compute; reflexivity]|]).
    contradiction.
  - intros stem e languageId. unfold languageIdOf.
    assert (Hkeys : forall map,
               (forall k v, In (k, v) map ->
                            In (String "." k) cleanableExtensions) ->
               ownProperty map e <> None ->
               exists k, In (String "." k) cleanableExtensions
                         /\ e = str k).
    { induction map as [|[k v] map IH]; simpl; intros Hall Hsome;
        [contradiction|].
      destruct (jsEqb e (str k)) eqn:E.
      - apply jsEqb_eq in E. exists k. split; [|exact E].
        apply (Hall k v). now left.
      - apply IH; [|exact Hsome]. intros k' v' H. apply (Hall k' v').
        now right. }
    intros H Hne.
    destruct (Hkeys langMap) as [k [Hin ->]].
    + intros k v Hkv. simpl in Hkv.
      repeat (destruct Hkv as [[= <- <-]|Hkv]; [vm_compute; tauto|]).
      contradiction.
    + destruct (ownProperty langMap e); [discriminate|].
      destruct (find _ objectPrototypeKeys); [discriminate|].
      injection H as <-. now destruct Hne.
    + apply isCleanableFile_suffix. exists stem, (String "." k).
      split; [exact Hin|reflexivity].
  - intros e key _. reflexivity.
Qed.

Lemma cleanable_extensions_are_langMap_keys_witness :
  (exists languageId,
     languageIdOf (Str.substringFrom (str ".py") 1) = LanguageTag languageId
     /\ languageId <> "plaintext"
     /\ existsb (fun p => applies p languageId) patterns = true)
  /\ isCleanableFile (str "lib/tool" ++ str "." ++ str "rb") = true
  /\ forallb
       (fun p => negb (appliesTo p (PrototypeValue "constructor"))) patterns
     = true.
Proof.
  destruct cleanable_extensions_are_langMap_keys
    as (Haccepted & Hkeys & Hinherited).
  split; [|split].
  - apply (Haccepted ".py"). simpl. tauto.
  - apply (Hkeys (str "lib/tool") (str "rb") "ruby");
      [vm_compute; reflexivity|discriminate].
  - apply (Hinherited (str "constructor") "constructor").
    vm_compute. reflexivity.
Defined.

(** *** Lines *)

Lemma split_nonempty sep s : Str.split sep s <> [].
Proof.
  destruct s as [|c s]; simpl; [discriminate|].
  destruct (c =? sep)%N; [discriminate|].
  destruct (Str.split sep s); discriminate.
Qed.

Lemma split_length sep s :
  List.length (Str.split sep s) = S (count_occ N.eq_dec s sep).
Proof.
  induction s as [|c s IH]; simpl; [reflexivity|].
  destruct (N.eqb_spec c sep) as [->|Hne].
  - simpl. rewrite IH. now destruct (N.eq_dec sep sep).
  - destruct (N.eq_dec c sep) as [E|_]; [contradiction|].
    pose proof (split_nonempty sep s) as Hn.
    destruct (Str.split sep s); [contradiction|exact IH].
Qed.

Lemma split_app_sep sep a b :
  Str.split sep (a ++ sep :: b) = Str.split sep a ++ Str.split sep b.
Proof.
  induction a as [|c a IH]; simpl.
  - now rewrite N.eqb_refl.
  - destruct (c =? sep)%N; rewrite IH; [reflexivity|].
    pose proof (split_nonempty sep a) as Hn.
    now destruct (Str.split sep a).
Qed.

Lemma split_prefix sep w post :
  ~ In sep w ->
  exists piece pieces,
    Str.split sep post = piece :: pieces
    /\ Str.split sep (w ++ post) = (w ++ piece) :: pieces.
Proof.
  induction w as [|c w IH]; intros Hw; simpl.
  - pose proof (split_nonempty sep post) as Hn.
    destruct (Str.split sep post) as [|piece pieces]; [contradiction|].
    now exists piece, pieces.
  - destruct (N.eqb_spec c sep) as [->|Hne]; [exfalso; apply Hw; now left|].
    destruct IH as (piece & pieces & Hpost & ->);
      [intros H; apply Hw; now right|].
    now exists piece, pieces.
Qed.

Lemma split_no_sep sep s : ~ In sep s -> Str.split sep s = [s].
Proof.
  intros Hs. destruct (split_prefix sep s [] Hs) as (piece & pieces & H & H').
  rewrite app_nil_r in H'. simpl in H. injection H as <- <-.
  now rewrite app_nil_r in H'.
Qed.

Lemma split_joinLines names :
  names <> [] -> Forall (fun name => ~ In LF name) names ->
  Str.split LF (joinLines names) = names.
Proof.
  induction names as [|name names IH]; intros Hne Hall; [contradiction|].
  inversion Hall as [|? ? Hname Hrest]; subst.
  destruct names as [|name' names].
  - simpl. now apply split_no_sep.
  - change (joinLines (name :: name' :: names))
      with (name ++ LF :: joinLines (name' :: names)).
    rewrite split_app_sep, (split_no_sep LF name Hname), IH;
      [reflexivity|discriminate|exact Hrest].
Qed.

(** A text that holds [w] has a line that holds [w], when [w] is within a
    line. *)
Lemma split_includes w pre post :
  ~ In LF w ->
  exists line,
    In line (Str.split LF (pre ++ w ++ post))
    /\ Str.includes line w = true.
Proof.
  intros Hw. induction pre as [|c pre IH]; simpl.
  - destruct (split_prefix LF w post Hw) as (piece & pieces & _ & ->).
    exists (w ++ piece). split; [now left|].
    apply includes_app. now exists [], piece.
  - destruct IH as (line & Hin & Hline).
    destruct (c =? LF)%N; [exists line; split; [now right|exact Hline]|].
    destruct (Str.split LF (pre ++ w ++ post)) as [|piece pieces];
      [contradiction|].
    destruct Hin as [<-|Hin].
    + exists (c :: piece). split; [now left|].
      simpl. rewrite Hline. apply orb_true_r.
    + exists line. split; [now right|exact Hline].
Qed.

(** *** Trimming *)

Lemma trimStart_decompose s :
  exists w, s = w ++ Str.trimStart s /\ allSpace w
            /\ match Str.trimStart s with
               | c :: _ => isSpace c = false
               | [] => True
               end.
Proof.
  induction s as [|c s IH]; simpl.
  - exists []. repeat split. constructor.
  - destruct (isSpace c) eqn:Hc.
    + destruct IH as (w & Hs & Hw & Hhead).
      exists (c :: w). repeat split; [simpl; now f_equal|now constructor|].
      exact Hhead.
    + exists []. repeat split; [constructor|exact Hc].
Qed.

Lemma trimStart_space w s :
  allSpace w -> Str.trimStart (w ++ s) = Str.trimStart s.
Proof.
  induction 1 as [|c w Hc Hw IH]; simpl; [reflexivity|]. now rewrite Hc.
Qed.

Lemma trimStart_visible c s :
  isSpace c = false -> Str.trimStart (c :: s) = c :: s.
Proof. intros Hc. simpl. now rewrite Hc. Qed.

Lemma trimStart_nil s : Str.trimStart s = [] <-> allSpace s.
Proof.
  split.
  - intros H. destruct (trimStart_decompose s) as (w & Hs & Hw & _).
    rewrite H, app_nil_r in Hs. now subst.
  - intros H. rewrite <- (app_nil_r s). now rewrite trimStart_space.
Qed.

Lemma allSpace_rev s : allSpace s -> allSpace (rev s).
Proof. unfold allSpace. apply Forall_rev. Qed.

Lemma trimEnd_space s w : allSpace w -> Str.trimEnd (s ++ w) = Str.trimEnd s.
Proof.
  intros Hw. unfold Str.trimEnd.
  now rewrite rev_app_distr, trimStart_space by now apply allSpace_rev.
Qed.

Lemma trimEnd_visible s c :
  isSpace c = false -> Str.trimEnd (s ++ [c]) = s ++ [c].
Proof.
  intros Hc. unfold Str.trimEnd. rewrite rev_app_distr. simpl.
  rewrite Hc. simpl. now rewrite rev_involutive.
Qed.

(** What is trimmed away is whitespace, and what is left neither begins
    nor ends with whitespace. *)
Lemma trim_decompose s :
  exists lead trail,
    s = lead ++ Str.trim s ++ trail /\ allSpace lead /\ allSpace trail
    /\ match Str.trim s with
       | c :: _ => isSpace c = false
       | [] => True
       end.
Proof.
  destruct (trimStart_decompose s) as (lead & Hs & Hlead & Hhead).
  destruct (trimStart_decompose (rev (Str.trimStart s)))
    as (w & Hr & Hw & _).
  assert (Ht : Str.trimStart s = Str.trim s ++ rev w).
  { unfold Str.trim, Str.trimEnd.
    rewrite <- (rev_involutive (Str.trimStart s)) at 1.
    rewrite Hr at 1. now rewrite rev_app_distr. }
  exists lead, (rev w). repeat split.
  - now rewrite <- Ht.
  - exact Hlead.
  - now apply allSpace_rev.
  - rewrite Ht in Hhead. destruct (Str.trim s) as [|c t]; [exact I|exact Hhead].
Qed.

Lemma trim_between lead s trail :
  allSpace lead -> allSpace trail ->
  isSpace (hd 32%N s) = false -> isSpace (last s 32%N) = false ->
  Str.trim (lead ++ s ++ trail) = s.
Proof.
  intros Hlead Htrail Hhd Hlast. unfold Str.trim.
  rewrite trimStart_space by exact Hlead.
  destruct s as [|c s]; [discriminate|]. simpl in Hhd.
  change ((c :: s) ++ trail) with (c :: (s ++ trail)).
  rewrite trimStart_visible by exact Hhd.
  change (c :: (s ++ trail)) with ((c :: s) ++ trail).
  rewrite trimEnd_space by exact Htrail.
  destruct (exists_last (l := c :: s)) as (s' & d & Hs'); [discriminate|].
  rewrite Hs' in *. rewrite last_last in Hlast.
  now apply trimEnd_visible.
Qed.

Lemma trimEnd_nil s : Str.trimEnd s = [] <-> allSpace s.
Proof.
  unfold Str.trimEnd. split.
  - intros H. apply (f_equal (@rev char)) in H.
    rewrite rev_involutive in H. simpl in H. apply trimStart_nil in H.
    rewrite <- (rev_involutive s). now apply allSpace_rev.
  - intros H. apply allSpace_rev, trimStart_nil in H. now rewrite H.
Qed.

(** Trimming the end stops at the last visible character. *)
Lemma trimEnd_app_visible front s :
  Str.trimEnd s <> [] -> Str.trimEnd (front ++ s) = front ++ Str.trimEnd s.
Proof.
  unfold Str.trimEnd. intros Hs. rewrite rev_app_distr.
  destruct (trimStart_decompose (rev s)) as (w & Hrev & Hw & Hhead).
  destruct (Str.trimStart (rev s)) as [|c r] eqn:E; [now destruct Hs|].
  rewrite Hrev at 1. rewrite <- app_assoc, trimStart_space by exact Hw.
  change ((c :: r) ++ rev front) with (c :: (r ++ rev front)).
  rewrite trimStart_visible by exact Hhead.
  change (c :: (r ++ rev front)) with ((c :: r) ++ rev front).
  now rewrite rev_app_distr, rev_involutive.
Qed.

(** *** [countDebugLines] *)

(** X3: the count is at most the number of lines of the content, one more
    than its line feeds. *)
Theorem countDebugLines_at_most_lines content :
  countDebugLines (Some content) <= S (count_occ N.eq_dec content LF).
Proof.
  unfold countDebugLines. rewrite <- split_length. apply filter_length_le.
Qed.

(** X4: the count of two contents joined by a line feed is the sum of
    their counts. *)
Theorem countDebugLines_joined a b :
  countDebugLines (Some (a ++ LF :: b))
  = countDebugLines (Some a) + countDebugLines (Some b).
Proof.
  unfold countDebugLines.
  now rewrite split_app_sep, filter_app, length_app.
Qed.

Lemma countDebugLines_positive w pre post :
  ~ In LF w ->
  (forall line, Str.includes line w = true -> isDebugLine line = true) ->
  1 <= countDebugLines (Some (pre ++ w ++ post)).
Proof.
  intros Hw Hdebug. unfold countDebugLines.
  destruct (split_includes w pre post Hw) as (line & Hin & Hline).
  assert (Hf : In line (filter isDebugLine (Str.split LF (pre ++ w ++ post))))
    by (apply filter_In; split; [exact Hin|now apply Hdebug]).
  destruct (filter isDebugLine _); [contradiction|simpl; lia].
Qed.

(** A pattern that begins with pattern characters matches only where they
    stand. *)
Lemma matchTerms_literal m_flag s_flag cs ts :
  forall prev s n,
    matchTerms m_flag s_flag (map (fun c => Atom (Chr c) One) cs ++ ts)
      prev s = Some n ->
    exists rest, s = cs ++ rest.
Proof.
  induction cs as [|c cs IH]; intros prev s n; [now exists s|].
  simpl. unfold matchOne at 1. destruct s as [|d s]; [discriminate|].
  simpl. destruct (N.eqb_spec d c) as [->|]; [|discriminate].
  destruct (matchTerms m_flag s_flag _ (Some c) s) as [n'|] eqn:E;
    [|discriminate].
  intros _. apply IH in E. destruct E as [rest ->]. now exists rest.
Qed.

Lemma includes_longer line w w' :
  Str.includes line (w ++ w') = true -> Str.includes line w = true.
Proof.
  rewrite !includes_app. intros (pre & post & ->).
  exists pre, (w' ++ post). now rewrite <- app_assoc.
Qed.

(** X5: when the highlight path marks a print statement in a text of
    [javascript], [typescript], [python] or [c], [countDebugLines] counts
    at least one debug line in that text. *)
Theorem highlighted_print_is_counted
  fuel t languageId printRanges commentRanges :
  In languageId ["javascript"; "typescript"; "python"; "c"] ->
  highlightPatterns fuel t languageId = Some (printRanges, commentRanges) ->
  printRanges <> [] ->
  1 <= countDebugLines (Some t).
Proof.
  intros Hlang. unfold highlightPatterns.
  destruct (getRangesForPatterns fuel t printPatterns languageId)
    as [[prs ps1]|] eqn:E1; [|discriminate]. cbn [bind].
  destruct (getRangesForPatterns fuel t commentPatterns languageId)
    as [[crs ps2]|]; [|discriminate]. cbn [bind].
  intros [= <- <-] Hne.
  apply (getRangesForPatterns_tokens printPatterns) in E1; try reflexivity.
  destruct prs as [|rg prs]; [contradiction|].
  inversion E1 as [|? ? [[_ (p & Hp & Ha & Hm)] _] _]; subst.
  assert (Hw : exists w,
             In w [str "console.log("; str "print("; str "printf("]
             /\ exists rest, skipn (range_start rg) t = w ++ rest).
  { unfold matchAt, matcher in Hm. simpl in Hlang, Hp.
    destruct Hp as [<-|[<-|[<-|[<-|[<-|[<-|[<-|[]]]]]]]];
      destruct Hlang as [<-|[<-|[<-|[<-|[]]]]]; try discriminate Ha.
    - exists (str "console.log("). split; [simpl; tauto|].
      exact (matchTerms_literal _ _ (str "console.log(") _ _ _ _ Hm).
    - exists (str "console.log("). split; [simpl; tauto|].
      exact (matchTerms_literal _ _ (str "console.log(") _ _ _ _ Hm).
    - exists (str "print("). split; [simpl; tauto|].
      exact (matchTerms_literal _ _ (str "print(") _ _ _ _ Hm).
    - exists (str "printf("). split; [simpl; tauto|].
      exact (matchTerms_literal _ _ (str "printf(") _ _ _ _ Hm). }
  destruct Hw as (w & Hwin & rest & Hrest).
  rewrite <- (firstn_skipn (range_start rg) t), Hrest.
  apply countDebugLines_positive.
  - simpl in Hwin. destruct Hwin as [<-|[<-|[<-|[]]]];
      vm_compute; intuition discriminate.
  - intros line Hline. unfold isDebugLine.
    simpl in Hwin. destruct Hwin as [<-|[<-|[<-|[]]]].
    + apply (includes_longer line (str "console.log") (str "(")) in Hline.
      now rewrite Hline.
    + rewrite Hline. now rewrite orb_true_r.
    + rewrite Hline. now rewrite !orb_true_r.
Qed.

Lemma highlighted_print_is_counted_witness :
  1 <= countDebugLines (Some commentedCall).
Proof.
  apply (highlighted_print_is_counted 26 commentedCall "javascript"
           [mkRange 10 25] [mkRange 7 25]).
  - simpl. tauto.
  - vm_compute. reflexivity.
  - discriminate.
Defined.

(** *** The output of git *)

Lemma filter_all_empty pieces :
  filter (fun file : jsstring => (0 <? List.length file)%nat) pieces = [] ->
  Forall (fun piece => piece = []) pieces.
Proof.
  induction pieces as [|piece pieces IH]; simpl; [constructor|].
  destruct piece as [|c piece]; simpl; [|discriminate].
  intros H. constructor; [reflexivity|now apply IH].
Qed.

Lemma split_all_empty sep s :
  Forall (fun piece => piece = []) (Str.split sep s) ->
  Forall (fun c => c = sep) s.
Proof.
  induction s as [|c s IH]; simpl; [constructor|].
  destruct (N.eqb_spec c sep) as [->|Hne].
  - intros H. inversion H; subst. constructor; [reflexivity|now apply IH].
  - destruct (Str.split sep s); intros H; inversion H; discriminate.
Qed.

(** X6: [cleanBeforeCommit] finds no modified file, and [showGitCleanStatus]
    no file, exactly when the output of git is whitespace and nothing
    else. *)
Theorem modifiedFiles_empty stdout :
  modifiedFiles stdout = [] <-> allSpace stdout.
Proof.
  unfold modifiedFiles. split.
  - intros H. apply filter_all_empty, split_all_empty in H.
    destruct (trim_decompose stdout) as (lead & trail & Hs & Hl & Ht & Hhd).
    destruct (Str.trim stdout) as [|c t].
    + rewrite Hs. unfold allSpace. rewrite Forall_app. now split.
    + inversion H; subst. discriminate Hhd.
  - intros H. unfold Str.trim.
    apply trimStart_nil in H. rewrite H. reflexivity.
Qed.

Lemma modifiedFiles_empty_witness :
  modifiedFiles ([LF] ++ str "  " ++ [LF]) = []
  /\ allSpace (str " " ++ [LF]).
Proof.
  split.
  - apply (proj2 (modifiedFiles_empty ([LF] ++ str "  " ++ [LF]))).
    repeat constructor.
  - apply (proj1 (modifiedFiles_empty (str " " ++ [LF]))).
    vm_compute. reflexivity.
Defined.

Lemma modifiedFiles_joinLines lead names trail :
  Forall (fun name => name <> [] /\ ~ In LF name) names ->
  isSpace (hd 32%N (joinLines names)) = false ->
  isSpace (last (joinLines names) 32%N) = false ->
  allSpace lead -> allSpace trail ->
  modifiedFiles (lead ++ joinLines names ++ trail) = names.
Proof.
  intros Hnames Hhd Hlast Hlead Htrail. unfold modifiedFiles.
  rewrite trim_between by assumption.
  assert (Hne : names <> []) by (intros ->; discriminate Hhd).
  rewrite split_joinLines;
    [|exact Hne|eapply Forall_impl; [|exact Hnames]; now intros ? [_ ?]].
  clear Hhd Hlast Hne.
  induction Hnames as [|name names [Hn _] _ IH]; simpl; [reflexivity|].
  destruct name; [contradiction|]. simpl. now rewrite IH.
Qed.

(** X7: names that git printed one on a line come back as they are, in
    their order: each name not empty and within a line, the first not
    beginning with whitespace and the last not ending with it, and
    whitespace, as the final line feed is, around the whole. *)
Theorem modifiedFiles_of_lines lead names trail :
  Forall (fun name => name <> [] /\ ~ In LF name) names ->
  isSpace (hd 32%N (joinLines names)) = false ->
  isSpace (last (joinLines names) 32%N) = false ->
  allSpace lead -> allSpace trail ->
  modifiedFiles (lead ++ joinLines names ++ trail) = names.
Proof. apply modifiedFiles_joinLines. Qed.

Lemma modifiedFiles_of_lines_witness :
  modifiedFiles ([] ++ joinLines [str "src/a.js"; str "b c.py"] ++ [LF])
  = [str "src/a.js"; str "b c.py"].
Proof.
  apply (modifiedFiles_of_lines [] [str "src/a.js"; str "b c.py"] [LF]).
  - repeat constructor; try discriminate; vm_compute; intuition discriminate.
  - vm_compute. reflexivity.
  - vm_compute. reflexivity.
  - constructor.
  - repeat constructor.
Defined.

Lemma stagedFiles_modifiedFiles stdout :
  stagedFiles stdout
  = map (fun line => Str.substringFrom line 3)
      (filter (fun line => test stagedLine line) (modifiedFiles stdout)).
Proof. reflexivity. Qed.

(** X8: when the first line of the status is an unstaged change, a blank,
    a status letter and a blank in front of the name, [trim] takes the
    first blank away, and [cleanStagedFiles] takes the file for a staged
    one under its name without the first character, whatever lines
    follow; those are read as they are, with the whitespace at the end of
    the output trimmed. *)
Theorem stagedFiles_unstaged_first_line status name rest :
  In status [ch "A"; ch "M"; ch "R"; ch "C"; ch "D"] ->
  name <> [] -> ~ In LF name -> isSpace (last name 32%N) = false ->
  stagedFiles ([32%N; status; 32%N] ++ name ++ LF :: rest)
  = Str.substringFrom name 1
    :: map (fun line => Str.substringFrom line 3)
         (filter (fun line => test stagedLine line)
            (filter (fun line => (0 <? List.length line)%nat)
               (Str.split LF (Str.trimEnd rest)))).
Proof.
  intros Hstatus Hname Hlf Hlast.
  assert (Hvisible : isSpace status = false)
    by (simpl in Hstatus;
        repeat (destruct Hstatus as [<-|Hstatus]; [reflexivity|]);
        contradiction).
  assert (Hline : ~ In LF (status :: 32%N :: name)).
  { simpl. intros [H|[H|H]]; [|discriminate H|contradiction].
    rewrite H in Hvisible. discriminate. }
  assert (Htest : test stagedLine (status :: 32%N :: name) = true)
    by (simpl in Hstatus;
        repeat (destruct Hstatus as [<-|Hstatus]; [reflexivity|]);
        contradiction).
  assert (Hend : Str.trimEnd (status :: 32%N :: name)
                 = status :: 32%N :: name).
  { destruct (exists_last Hname) as (name' & x & ->).
    rewrite last_last in Hlast.
    change (status :: 32%N :: name' ++ [x])
      with ((status :: 32%N :: name') ++ [x]).
    now apply trimEnd_visible. }
  assert (Htrim :
    Str.trim ([32%N; status; 32%N] ++ name ++ LF :: rest)
    = (status :: 32%N :: name)
      ++ match Str.trimEnd rest with
         | [] => []
         | _ :: _ => LF :: Str.trimEnd rest
         end).
  { unfold Str.trim.
    change (Str.trimStart ([32%N; status; 32%N] ++ name ++ LF :: rest))
      with (Str.trimStart (status :: 32%N :: name ++ LF :: rest)).
    rewrite trimStart_visible by exact Hvisible.
    destruct (Str.trimEnd rest) as [|c r] eqn:Er.
    - apply trimEnd_nil in Er.
      change (status :: 32%N :: name ++ LF :: rest)
        with ((status :: 32%N :: name) ++ LF :: rest).
      rewrite trimEnd_space by now constructor.
      now rewrite Hend, app_nil_r.
    - replace (status :: 32%N :: name ++ LF :: rest)
        with ((status :: 32%N :: name ++ [LF]) ++ rest)
        by (simpl; now rewrite <- app_assoc).
      rewrite trimEnd_app_visible by (rewrite Er; discriminate).
      rewrite Er. simpl. now rewrite <- app_assoc. }
  unfold stagedFiles. rewrite Htrim.
  destruct (Str.trimEnd rest) as [|c r].
  - rewrite app_nil_r, (split_no_sep LF _ Hline).
    cbn [filter List.length Nat.ltb Nat.leb]. rewrite Htest. reflexivity.
  - rewrite split_app_sep, (split_no_sep LF _ Hline).
    cbn [app filter List.length Nat.ltb Nat.leb]. rewrite Htest. reflexivity.
Qed.

Lemma stagedFiles_unstaged_first_line_witness :
  stagedFiles ([32%N; ch "M"; 32%N] ++ str "foo.js"
               ++ LF :: str "A  bar.py" ++ [LF])
  = [str "oo.js"; str "bar.py"].
Proof.
  apply (stagedFiles_unstaged_first_line (ch "M") (str "foo.js")
           (str "A  bar.py" ++ [LF])).
  - simpl. tauto.
  - discriminate.
  - vm_compute. intuition discriminate.
  - vm_compute. reflexivity.
Defined.

(** ** The editor commands *)

Section HostFacts.

Variable changeEvent : jsstring -> jsstring -> bool.

Lemma applyEdit_documents uri newText st u :
  documents (applyEdit changeEvent uri newText st) u
  = if String.eqb u uri then newText else documents st u.
Proof.
  unfold applyEdit. now destruct (changeEvent _ _).
Qed.

Lemma applyEdit_lastCleanEdit uri newText st :
  lastCleanEdit (applyEdit changeEvent uri newText st) = lastCleanEdit st.
Proof.
  unfold applyEdit. now destruct (changeEvent _ _).
Qed.

(** X9: [undoClean] after [cleanAll] gives every document the text it had
    before the clean, and leaves nothing to undo. *)
Theorem undoClean_after_cleanAll st uri :
  activeTextEditor st = Some uri ->
  (forall u,
     documents (undoClean changeEvent (cleanAll changeEvent st)) u
     = documents st u)
  /\ lastCleanEdit (undoClean changeEvent (cleanAll changeEvent st)) = None.
Proof.
  intros Hactive. unfold cleanAll. rewrite Hactive.
  set (cleaned := applyEdit changeEvent uri _ _).
  assert (Hlast : lastCleanEdit (clearHighlights cleaned)
                  = Some (uri, documents st uri))
    by (unfold cleaned; cbn [clearHighlights lastCleanEdit];
        now rewrite applyEdit_lastCleanEdit).
  unfold undoClean. rewrite Hlast. split; [|reflexivity].
  intros u. cbn [setLastCleanEdit documents].
  rewrite applyEdit_documents. cbn [clearHighlights documents].
  unfold cleaned. rewrite applyEdit_documents. cbn [setLastCleanEdit documents].
  destruct (String.eqb_spec u uri) as [->|]; reflexivity.
Qed.

(** X10: the undo buffer holds one edit: a second [undoClean] in a row
    changes nothing and only warns that there is nothing to undo. *)
Theorem undoClean_twice st :
  undoClean changeEvent (undoClean changeEvent st)
  = showWarningMessage "Nothing to undo" (undoClean changeEvent st).
Proof.
  assert (H : lastCleanEdit (undoClean changeEvent st) = None).
  { unfold undoClean. destruct (lastCleanEdit st) as [[uri text]|] eqn:E.
    - reflexivity.
    - exact E. }
  unfold undoClean at 1. now rewrite H.
Qed.

Lemma dispose_all_In entry ds shown :
  In entry (fold_left (fun shown d => dispose d shown) ds shown) ->
  In entry shown /\ ~ In (fst entry) ds.
Proof.
  revert shown. induction ds as [|d ds IH]; intros shown; simpl.
  - tauto.
  - intros H. apply IH in H. destruct H as [Hin Hds].
    unfold dispose in Hin. apply filter_In in Hin. destruct Hin as [Hin Hd].
    apply negb_true_iff, Nat.eqb_neq in Hd.
    split; [exact Hin|]. intros [->|H]; [now apply Hd|now apply Hds].
Qed.

Lemma clearHighlights_tracked st :
  tracked st -> rendered (clearHighlights st) = [].
Proof.
  intros Htracked. cbn [clearHighlights rendered].
  destruct (fold_left _ _ _) as [|entry shown] eqn:E; [reflexivity|].
  assert (Hin : In entry
                  (fold_left (fun shown d => dispose d shown)
                     (highlightDecorations st) (rendered st)))
    by (rewrite E; now left).
  apply dispose_all_In in Hin. destruct Hin as [Hin Hnot].
  exfalso. apply Hnot. now apply Htracked.
Qed.

Lemma tracked_cleared st : tracked st -> tracked (clearHighlights st).
Proof.
  intros H entry Hin. rewrite (clearHighlights_tracked st H) in Hin.
  contradiction.
Qed.

Lemma tracked_applyEdit uri newText st :
  tracked st -> tracked (applyEdit changeEvent uri newText st).
Proof.
  intros H. unfold applyEdit. destruct (changeEvent _ _).
  - now apply tracked_cleared.
  - exact H.
Qed.

Lemma tracked_step st st' :
  tracked st -> step changeEvent st st' -> tracked st'.
Proof.
  intros Htracked Hstep.
  destruct Hstep as [st st' Htoggle|st|st|st uri newText|st editor].
  - unfold toggleHighlight in Htoggle.
    destruct (activeTextEditor st) as [uri|].
    + destruct (0 <? _)%nat.
      * injection Htoggle as <-. now apply tracked_cleared.
      * unfold highlightEditor in Htoggle.
        destruct (highlightPatterns _ _ _) as [[prs crs]|]; [|discriminate].
        cbn [bind] in Htoggle. injection Htoggle as <-.
        pose proof (clearHighlights_tracked st Htracked) as Hc.
        cbn [clearHighlights rendered] in Hc.
        intros entry. cbn [rendered highlightDecorations clearHighlights].
        rewrite Hc. unfold setDecorations at 1.
        intros [<-|Hin]; [simpl; tauto|].
        apply filter_In in Hin. destruct Hin as [[<-|[]] _]. simpl. tauto.
    + now injection Htoggle as <-.
  - unfold cleanAll. destruct (activeTextEditor st); [|exact Htracked].
    apply tracked_cleared, tracked_applyEdit. exact Htracked.
  - unfold undoClean. destruct (lastCleanEdit st) as [[uri text]|].
    + apply (tracked_applyEdit uri text st) in Htracked. exact Htracked.
    + exact Htracked.
  - now apply tracked_cleared.
  - exact Htracked.
Qed.

(** X11: from activation on, whatever commands, edits and changes of
    editor follow, every decoration on an editor is one that
    [highlightDecorations] holds, so that [clearHighlights] leaves no
    decoration behind. *)
Theorem decorations_tracked init st :
  activated init -> reachable changeEvent init st ->
  tracked st /\ rendered (clearHighlights st) = [].
Proof.
  intros (Hrendered & _ & _) Hreach.
  assert (Htracked : tracked st).
  { induction Hreach as [|st st' _ IH Hstep].
    - intros entry Hin. rewrite Hrendered in Hin. contradiction.
    - exact (tracked_step st st' IH Hstep). }
  split; [exact Htracked|now apply clearHighlights_tracked].
Qed.

End HostFacts.

Lemma undoClean_after_cleanAll_witness :
  documents (cleanAll alwaysRaised oneDocument) "file:///a.js" = str "x = 2;"
  /\ documents (undoClean alwaysRaised (cleanAll alwaysRaised oneDocument))
       "file:///a.js" = callThenCode.
Proof.
  split; [vm_compute; reflexivity|].
  apply (undoClean_after_cleanAll alwaysRaised oneDocument "file:///a.js").
  reflexivity.
Defined.

Lemma decorations_tracked_witness :
  exists st,
    toggleHighlight (cleanAll alwaysRaised oneDocument) = Some st
    /\ List.length (rendered st) = 2
    /\ tracked st /\ rendered (clearHighlights st) = [].
Proof.
  destruct (toggleHighlight (cleanAll alwaysRaised oneDocument))
    as [st|] eqn:E; [|vm_compute in E; discriminate].
  exists st. split; [reflexivity|].
  split; [vm_compute in E; injection E as <-; reflexivity|].
  apply (decorations_tracked alwaysRaised oneDocument st).
  - repeat split.
  - eapply ReachStep; [eapply ReachStep; [apply ReachInit|apply StepClean]|].
    apply StepToggle. exact E.
Defined.

(** ** More on the clean path *)

Lemma Subseq_nil b : Subseq [] b.
Proof. induction b; constructor; assumption. Qed.

Lemma Subseq_refl a : Subseq a a.
Proof. induction a; constructor; assumption. Qed.

Lemma Subseq_trans a b c : Subseq a b -> Subseq b c -> Subseq a c.
Proof.
  intros Hab Hbc. revert a Hab.
  induction Hbc as [|x b c Hbc IH|x b c Hbc IH]; intros a Hab.
  - exact Hab.
  - inversion Hab; subst.
    + constructor. now apply IH.
    + apply SubseqDrop. now apply IH.
  - apply SubseqDrop. now apply IH.
Qed.

Lemma Subseq_app a b c d : Subseq a b -> Subseq c d -> Subseq (a ++ c) (b ++ d).
Proof.
  intros Hab Hcd. induction Hab; simpl; try constructor; assumption.
Qed.

Lemma Subseq_skipn n s : Subseq (skipn n s) s.
Proof.
  revert s. induction n as [|n IH]; intros [|c s]; simpl;
    try apply Subseq_refl.
  apply SubseqDrop, IH.
Qed.

Lemma Subseq_In c s : In c s -> Subseq [c] s.
Proof.
  induction s as [|d s IH]; simpl; [intros []|intros [->|H]].
  - constructor. apply Subseq_nil.
  - apply SubseqDrop. now apply IH.
Qed.

(** A replacement that is what is left of each match when characters are
    taken out of it leaves the text with characters taken out. *)
Lemma replaceAllFrom_Subseq r repl :
  (forall prev s n, matcher r prev s = Some n -> Subseq repl (firstn n s)) ->
  forall s skip prev,
    Subseq (replaceAllFrom r repl skip prev s) (skipn skip s).
Proof.
  intros Hrepl. induction s as [|c s IH]; intros skip prev.
  - destruct skip as [|k]; simpl; [|constructor].
    destruct (matcher r prev []) as [[|k]|] eqn:E; try constructor;
      apply Hrepl in E; simpl in E; now rewrite app_nil_r.
  - destruct skip as [|k]; simpl; [|apply IH].
    destruct (matcher r prev (c :: s)) as [[|k]|] eqn:E.
    + apply Hrepl in E. simpl in E. inversion E; subst. simpl.
      constructor. apply (IH 0).
    + apply Hrepl in E.
      rewrite <- (firstn_skipn (S k) (c :: s)).
      apply Subseq_app; [exact E|]. simpl. apply IH.
    + constructor. apply (IH 0).
Qed.

Lemma replace_Subseq s r repl :
  (forall prev s n, matcher r prev s = Some n -> Subseq repl (firstn n s)) ->
  Subseq (replace s r repl) s.
Proof.
  intros Hrepl. unfold replace. destruct (global r).
  - apply (replaceAllFrom_Subseq r repl Hrepl s 0 None).
  - destruct (search r None s 0) as [[i n]|] eqn:E; [|apply Subseq_refl].
    apply (search_found r s s None 0 i n eq_refl eq_refl) in E; [|lia].
    destruct E as (_ & Hm & _ & _). apply Hrepl in Hm.
    rewrite <- (firstn_skipn i s) at 3.
    apply Subseq_app; [apply Subseq_refl|].
    rewrite <- (firstn_skipn n (skipn i s)).
    apply Subseq_app; [exact Hm|].
    rewrite skipn_skipn. replace (n + i) with (i + n) by lia.
    apply Subseq_refl.
Qed.

Lemma replace_delete_Subseq s r : Subseq (replace s r []) s.
Proof. apply replace_Subseq. intros. apply Subseq_nil. Qed.

Section LastCharacter.

Variable m_flag s_flag : bool.
Variable c : char.

Lemma endsIn_matchOne a k : endsIn c k -> endsIn c (matchOne s_flag a k).
Proof.
  intros Hk prev s n. unfold matchOne.
  destruct s as [|d s]; [discriminate|].
  destruct (atomMatches s_flag a d); [|discriminate].
  destruct (k (Some d) s) as [n'|] eqn:E; [|discriminate].
  intros [= <-]. apply Hk in E. destruct E as [Hn Hnth].
  split; [lia|]. simpl. rewrite Nat.sub_0_r.
  destruct n' as [|n']; [lia|]. simpl in Hnth. now rewrite Nat.sub_0_r in Hnth.
Qed.

Lemma endsIn_matchStar a k : endsIn c k -> endsIn c (matchStar s_flag a k).
Proof.
  intros Hk prev s. revert prev.
  induction s as [|d s IH]; intros prev n; simpl; [apply Hk|].
  destruct (atomMatches s_flag a d); [|apply Hk].
  destruct (matchStar s_flag a k (Some d) s) as [n'|] eqn:E; [|apply Hk].
  intros [= <-]. apply IH in E. destruct E as [Hn Hnth].
  split; [lia|]. simpl. rewrite Nat.sub_0_r.
  destruct n' as [|n']; [lia|]. simpl in Hnth. now rewrite Nat.sub_0_r in Hnth.
Qed.

Lemma endsIn_last :
  endsIn c (matchOne s_flag (Chr c) (matchTerms m_flag s_flag [])).
Proof.
  intros prev s n. unfold matchOne. destruct s as [|d s]; [discriminate|].
  simpl. destruct (N.eqb_spec d c) as [->|]; [|discriminate].
  intros [= <-]. split; [lia|reflexivity].
Qed.

End LastCharacter.

(** A run of blank lines begins and ends with a line feed. *)
Lemma blankRun_match prev s n :
  matcher blankRun prev s = Some n -> Subseq [LF; LF] (firstn n s).
Proof.
  intros H.
  destruct (matcher_first blankRun LF prev s n eq_refl H) as [s' ->].
  pose proof (matcher_bounded blankRun _ _ _ H) as [Hmin _].
  assert (Hend : endsIn LF (matcher blankRun)).
  { unfold matcher. simpl.
    apply endsIn_matchOne, endsIn_matchStar, endsIn_matchOne,
      endsIn_matchStar, (endsIn_last false false LF). }
  apply Hend in H. destruct H as [_ Hnth]. simpl in Hmin.
  destruct n as [|n]; [lia|]. simpl in Hnth. rewrite Nat.sub_0_r in Hnth.
  destruct n as [|n]; [lia|]. simpl in Hnth.
  change (firstn (S (S n)) (LF :: s')) with (LF :: firstn (S n) s').
  constructor. apply Subseq_In.
  apply (nth_error_In _ n). rewrite nth_error_firstn.
  destruct (Nat.ltb_spec n (S n)); [exact Hnth|lia].
Qed.

(** X12: the clean path only takes characters out: the cleaned text is the
    text with characters left out, none put in and none moved. *)
Theorem removePatterns_only_deletes t languageId :
  Subseq (removePatterns t languageId) t.
Proof.
  unfold removePatterns, stripInvisible, stripLeadingBlank, stripTrailing,
    collapseBlankLines.
  eapply Subseq_trans; [apply replace_delete_Subseq|].
  eapply Subseq_trans; [apply replace_delete_Subseq|].
  eapply Subseq_trans; [apply replace_delete_Subseq|].
  eapply Subseq_trans; [apply replace_Subseq, blankRun_match|].
  unfold applyPatterns. revert t.
  induction patterns as [|p ps IH]; intros t; simpl; [apply Subseq_refl|].
  eapply Subseq_trans; [apply IH|].
  destruct (applies p languageId);
    [apply replace_delete_Subseq|apply Subseq_refl].
Qed.

Lemma stripInvisible_filter s :
  stripInvisible s = filter (fun c => negb (isInvisible c)) s.
Proof.
  unfold stripInvisible, replace. cbn [global invisible flags_g].
  generalize (@None char).
  induction s as [|c s IH]; intros prev; [reflexivity|].
  cbn [replaceAllFrom filter]. unfold matcher.
  cbn [source multiline dotAll invisible flags_g matchTerms matchTerm
       matchOne atomMatches existsb memberMatches option_map xorb].
  rewrite orb_false_r. fold (isInvisible c).
  destruct (isInvisible c); cbn [negb app]; rewrite IH; reflexivity.
Qed.

(** X13: the cleaned text holds no zero width space, non-joiner or joiner
    and no byte order mark. *)
Theorem removePatterns_no_invisible t languageId :
  Forall (fun c => isInvisible c = false) (removePatterns t languageId).
Proof.
  unfold removePatterns. rewrite stripInvisible_filter.
  apply Forall_forall. intros c Hc. apply filter_In in Hc.
  now apply negb_true_iff.
Qed.

(** ** More on the highlight path *)

Lemma forEachPattern_none fuel t languageId :
  forall ps ranges,
    forallb (fun p => negb (applies p languageId)) ps = true ->
    forEachPattern fuel t languageId ps ranges = Some (ranges, ps).
Proof.
  induction ps as [|p ps IH]; intros ranges; cbn [forEachPattern forallb];
    [reflexivity|].
  rewrite andb_true_iff, negb_true_iff. intros [-> Hps].
  now rewrite (IH ranges Hps).
Qed.

Lemma highlight_tables_restricted :
  Forall (fun p => exists ls, languages p = Some ls)
    (printPatterns ++ commentPatterns).
Proof. repeat constructor; eexists; reflexivity. Qed.

(** X14: nothing is highlighted in a text of a language that no highlight
    rule lists, [plaintext] for one, whatever the fuel. *)
Theorem highlightPatterns_unknown_language fuel t languageId :
  (forall p ls, In p (printPatterns ++ commentPatterns) ->
                languages p = Some ls -> ~ In languageId ls) ->
  highlightPatterns fuel t languageId = Some ([], []).
Proof.
  intros H.
  assert (Hnone : forallb (fun p => negb (applies p languageId))
                    (printPatterns ++ commentPatterns) = true).
  { apply forallb_forall. intros p Hp.
    pose proof highlight_tables_restricted as Hr.
    rewrite Forall_forall in Hr. destruct (Hr p Hp) as [ls Hls].
    unfold applies. rewrite Hls. apply negb_true_iff.
    destruct (existsb (String.eqb languageId) ls) eqn:E; [|reflexivity].
    apply existsb_exists in E. destruct E as [l [Hin Heq]].
    apply String.eqb_eq in Heq. subst l.
    exfalso. exact (H p ls Hp Hls Hin). }
  rewrite forallb_app, andb_true_iff in Hnone. destruct Hnone as [Hp Hc].
  unfold highlightPatterns, getRangesForPatterns.
  now rewrite (forEachPattern_none fuel t languageId printPatterns [] Hp),
    (forEachPattern_none fuel t languageId commentPatterns [] Hc).
Qed.

Lemma highlightPatterns_unknown_language_witness :
  highlightPatterns 0 commentedCall "plaintext" = Some ([], []).
Proof.
  apply (highlightPatterns_unknown_language 0 commentedCall "plaintext").
  intros p ls Hp Hls Hin.
  assert (Hex : existsb
                  (fun p => match languages p with
                            | Some ls => existsb (String.eqb "plaintext") ls
                            | None => false
                            end) (printPatterns ++ commentPatterns) = true).
  { apply existsb_exists. exists p. split; [exact Hp|].
    rewrite Hls. apply existsb_exists. exists "plaintext".
    split; [exact Hin|apply String.eqb_refl]. }
  vm_compute in Hex. discriminate.
Defined.

Lemma ascending_weaken j j' ranges :
  j' <= j -> ascending j ranges -> ascending j' ranges.
Proof.
  destruct ranges as [|rg ranges]; simpl; [trivial|].
  intros Hle (H1 & H2 & H3). repeat split; trivial; lia.
Qed.

Lemma execLoop_ascending r s :
  global r = true -> 1 <= minLength (source r) ->
  forall fuel j ranges out r',
    execLoop fuel (setLastIndex j r) s ranges = Some (out, r') ->
    exists new, out = ranges ++ new /\ ascending j new.
Proof.
  intros Hg Hmin. induction fuel as [|fuel IH]; intros j ranges out r';
    [discriminate|].
  cbn [execLoop]. pose proof (exec_global r j s Hg) as He.
  destruct (exec (setLastIndex j r) s) as [[m|] r1].
  - cbv zeta in He. destruct He as (Hj & _ & Hn & _ & _ & ->).
    intros H. apply IH in H. destruct H as (new & -> & Hnew).
    exists (mkRange (index m) (index m + List.length (matched m)) :: new).
    split; [now rewrite <- app_assoc|].
    unfold positionAt. cbn [ascending range_start range_end].
    repeat split; trivial; lia.
  - intros [= <- <-]. exists []. split; [now rewrite app_nil_r|exact I].
Qed.

(** X15: the ranges of one pattern come in the order of the text and do
    not overlap: each begins where the one before it ended, or later. *)
Theorem getRangesForPatterns_one_pattern_ascending
  fuel text pattern languageId ranges ps :
  advancing pattern = true ->
  getRangesForPatterns fuel text [pattern] languageId = Some (ranges, ps) ->
  ascending 0 ranges.
Proof.
  unfold advancing, getRangesForPatterns. cbn [forEachPattern].
  rewrite andb_true_iff, Nat.leb_le. intros [Hg Hmin].
  destruct (applies pattern languageId).
  - destruct (execLoop fuel _ text []) as [[out r']|] eqn:E; [|discriminate].
    cbn [bind]. intros [= <- <-].
    apply (execLoop_ascending (regex pattern) text Hg Hmin) in E.
    destruct E as (new & -> & Hnew). exact Hnew.
  - cbn [bind]. intros [= <- <-]. exact I.
Qed.

Lemma getRangesForPatterns_one_pattern_ascending_witness :
  ascending 0 [mkRange 0 2; mkRange 3 5].
Proof.
  apply (getRangesForPatterns_one_pattern_ascending 6
           (str "#a" ++ [LF] ++ str "#b")
           (mkPattern (flags_gm (lits "#" ++ [Atom Dot Star; Dollar]))
              (Some hashLike))
           "python" [mkRange 0 2; mkRange 3 5]
           [mkPattern (flags_gm (lits "#" ++ [Atom Dot Star; Dollar]))
              (Some hashLike)]).
  - vm_compute. reflexivity.
  - vm_compute. reflexivity.
Defined.

(** *** A call on a line of its own *)

Section Runs.

Variable m_flag s_flag : bool.

(** A greedy repetition takes a whole run of characters of its atom when
    the rest of the pattern matches behind the run. *)
Lemma matchStar_run a k ws rest n :
  Forall (fun c => atomMatches s_flag a c = true) ws ->
  match rest with
  | d :: _ => atomMatches s_flag a d = false
  | [] => True
  end ->
  (forall prev, k prev rest = Some n) ->
  forall prev,
    matchStar s_flag a k prev (ws ++ rest) = Some (List.length ws + n).
Proof.
  intros Hws Hrest Hk. induction Hws as [|c ws Hc _ IH]; intros prev.
  - simpl. destruct rest as [|d rest]; simpl; [apply Hk|].
    rewrite Hrest. apply Hk.
  - simpl. now rewrite Hc, IH.
Qed.

Lemma lits_run cs ts rest n :
  (forall prev, matchTerms m_flag s_flag ts prev rest = Some n) ->
  forall prev,
    matchTerms m_flag s_flag (map (fun c => Atom (Chr c) One) cs ++ ts)
      prev (cs ++ rest) = Some (List.length cs + n).
Proof.
  intros Hts. induction cs as [|c cs IH]; intros prev; simpl; [apply Hts|].
  unfold matchOne. simpl. now rewrite N.eqb_refl, IH.
Qed.

Lemma endOfLine_run trail :
  allSpace trail ->
  forall prev,
    matchTerms true s_flag [Atom Space Star; Dollar] prev trail
    = Some (List.length trail).
Proof.
  intros Htrail prev. simpl.
  rewrite <- (app_nil_r trail) at 1.
  rewrite (matchStar_run Space _ trail [] 0); [now rewrite Nat.add_0_r| |
    exact I|reflexivity].
  exact Htrail.
Qed.

Lemma semicolon_run semi trail :
  In semi [[]; str ";"] -> allSpace trail ->
  forall prev,
    matchTerms true s_flag
      [Atom (Chr (ch ";")) Opt; Atom Space Star; Dollar] prev (semi ++ trail)
    = Some (List.length semi + List.length trail).
Proof.
  intros Hsemi Htrail prev.
  change (matchTerms true s_flag
            [Atom (Chr (ch ";")) Opt; Atom Space Star; Dollar])
    with (matchOpt s_flag (Chr (ch ";"))
            (matchTerms true s_flag [Atom Space Star; Dollar])).
  unfold matchOpt, matchOne.
  destruct Hsemi as [<-|[<-|[]]].
  - destruct trail as [|d trail].
    + apply (endOfLine_run [] Htrail).
    + cbn [app atomMatches]. destruct (N.eqb_spec d (ch ";")) as [->|_].
      * inversion Htrail; subst. discriminate.
      * apply (endOfLine_run (d :: trail) Htrail).
  - cbn [app str map list_ascii_of_string atomMatches].
    rewrite N.eqb_refl, (endOfLine_run trail Htrail). reflexivity.
Qed.

End Runs.

(** [/^\s*call[^)]*\);?\s*$/gm], the shape of the print rules of
    [console.log], [print], [printf] and [System.out.println]. *)
Lemma call_rule_match call indent args semi trail :
  allSpace indent -> isSpace (hd 32%N (str call)) = false ->
  ~ In (ch ")") args -> In semi [[]; str ";"] -> allSpace trail ->
  matcher
    (flags_gm ([Caret; anySpace] ++ lits call ++ [manyNot ")"] ++ lits ")"
               ++ [Atom (Chr (ch ";")) Opt; anySpace; Dollar]))
    None (indent ++ str call ++ args ++ str ")" ++ semi ++ trail)
  = Some (List.length
            (indent ++ str call ++ args ++ str ")" ++ semi ++ trail)).
Proof.
  intros Hindent Hcall Hargs Hsemi Htrail. unfold matcher, anySpace, manyNot.
  cbn [source multiline dotAll flags_gm app matchTerms matchTerm atLineStart].
  rewrite (matchStar_run false Space _ indent _
             (List.length (str call ++ args ++ str ")" ++ semi ++ trail))).
  - now rewrite (length_app indent).
  - exact Hindent.
  - destruct (str call) as [|c cs]; [discriminate|]. exact Hcall.
  - intros prev.
    rewrite (lits_run true false (str call) _ _
               (List.length (args ++ str ")" ++ semi ++ trail)));
      [now rewrite (length_app (str call))|].
    intros prev'. cbn [app matchTerms matchTerm].
    rewrite (matchStar_run false _ _ args _
               (List.length (str ")" ++ semi ++ trail)));
      [now rewrite (length_app args)| | |].
    + apply Forall_forall. intros c Hc. cbn [atomMatches existsb memberMatches].
      rewrite orb_false_r. destruct (N.eqb_spec c (ch ")")) as [->|_];
        [contradiction|reflexivity].
    + reflexivity.
    + intros prev''.
      rewrite (lits_run true false (str ")") _ _
                 (List.length (semi ++ trail)));
        [now rewrite (length_app (str ")"))|].
      intros prev3. rewrite length_app. now apply semicolon_run.
Qed.

(** A global pattern that matches the whole of a text, and not the empty
    string, leaves nothing of it. *)
Lemma replaceAllFrom_skips r repl s :
  forall skip prev,
    1 <= minLength (source r) -> List.length s <= skip ->
    replaceAllFrom r repl skip prev s = [].
Proof.
  induction s as [|c s IH]; intros skip prev Hmin Hskip.
  - destruct skip as [|k]; simpl; [|reflexivity].
    destruct (matcher r prev []) as [n|] eqn:E; [|reflexivity].
    apply matcher_bounded in E. simpl in E. lia.
  - destruct skip as [|k]; simpl in *; [lia|]. apply IH; [exact Hmin|lia].
Qed.

Lemma replace_whole s r :
  global r = true -> 1 <= minLength (source r) ->
  matcher r None s = Some (List.length s) ->
  replace s r [] = [].
Proof.
  intros Hg Hmin Hm. unfold replace. rewrite Hg.
  destruct s as [|c s]; simpl.
  - rewrite Hm. reflexivity.
  - rewrite Hm. simpl. apply replaceAllFrom_skips; [exact Hmin|lia].
Qed.

Lemma applyPatterns_skip p ps languageId s :
  applies p languageId = false ->
  applyPatterns (p :: ps) languageId s = applyPatterns ps languageId s.
Proof. intros H. unfold applyPatterns. simpl. now rewrite H. Qed.

Lemma applyPatterns_apply p ps languageId s :
  applies p languageId = true ->
  applyPatterns (p :: ps) languageId s
  = applyPatterns ps languageId (replace s (regex p) []).
Proof. intros H. unfold applyPatterns. simpl. now rewrite H. Qed.

Lemma replace_nil r : replace [] r [] = [].
Proof.
  unfold replace. destruct (global r); simpl.
  - now destruct (matcher r None []) as [[|k]|].
  - destruct (matcher r None []) as [n|]; [|reflexivity].
    now destruct n.
Qed.

Lemma applyPatterns_nil ps languageId : applyPatterns ps languageId [] = [].
Proof.
  induction ps as [|p ps IH]; [reflexivity|].
  destruct (applies p languageId) eqn:E.
  - now rewrite applyPatterns_apply, replace_nil.
  - now rewrite applyPatterns_skip.
Qed.

(** X16: a text that is one call of the print function of its language,
    [console.log(...)], [print(...)], [printf(...)] or
    [System.out.println(...)] without a closing parenthesis among the
    arguments, with or without a semicolon and with whitespace around it,
    is cleaned to the empty text. *)
Theorem whole_line_call_removed languageId call indent args semi trail :
  In (languageId, call)
     [ ("javascript", "console.log("); ("typescript", "console.log(");
       ("python", "print("); ("c", "printf("); ("cpp", "printf(");
       ("java", "System.out.println(") ] ->
  allSpace indent -> ~ In (ch ")") args -> In semi [[]; str ";"] ->
  allSpace trail ->
  removePatterns (indent ++ str call ++ args ++ str ")" ++ semi ++ trail)
    languageId = [].
Proof.
  intros Hin Hindent Hargs Hsemi Htrail.
  pose proof (fun H => call_rule_match call indent args semi trail
                         Hindent H Hargs Hsemi Htrail) as Hm.
  set (t := indent ++ str call ++ args ++ str ")" ++ semi ++ trail) in *.
  assert (Hrule :
    replace t
      (flags_gm ([Caret; anySpace] ++ lits call ++ [manyNot ")"] ++ lits ")"
                 ++ [Atom (Chr (ch ";")) Opt; anySpace; Dollar])) [] = []).
  { apply replace_whole; [reflexivity| |].
    - simpl in Hin.
      repeat (destruct Hin as [[= <- <-]|Hin]; [vm_compute; lia|]).
      contradiction.
    - apply Hm. simpl in Hin.
      repeat (destruct Hin as [[= <- <-]|Hin]; [reflexivity|]).
      contradiction. }
  clearbody t. clear Hm.
  assert (Happly : applyPatterns patterns languageId t = []).
  { unfold patterns. simpl in Hin.
    repeat (destruct Hin as [[= <- <-]|Hin];
            [rewrite ?applyPatterns_skip by reflexivity;
             rewrite applyPatterns_apply by reflexivity;
             cbn [regex]; rewrite Hrule; apply applyPatterns_nil|]).
    contradiction. }
  unfold removePatterns. rewrite Happly. vm_compute. reflexivity.
Qed.

Lemma whole_line_call_removed_witness :
  removePatterns
    (str "  " ++ str "console.log(" ++ str "1, x" ++ str ")" ++ str ";"
     ++ [LF]) "typescript" = [].
Proof.
  apply (whole_line_call_removed "typescript" "console.log(" (str "  ")
           (str "1, x") (str ";") [LF]).
  - simpl. tauto.
  - repeat constructor.
  - vm_compute. intuition discriminate.
  - simpl. tauto.
  - repeat constructor.
Defined.

(** *** A comment on a line of its own *)

(** The rules that begin [^\s*c] for a pattern character [c]. *)
Lemma anchored_start_none s_flag c k ws m rest :
  allSpace ws -> isSpace c = false -> isSpace m = false -> m <> c ->
  forall prev,
    matchStar s_flag Space (matchOne s_flag (Chr c) k) prev (ws ++ m :: rest)
    = None.
Proof.
  intros Hws Hc Hm Hmc. induction Hws as [|w ws Hw _ IH]; intros prev.
  - cbn [app matchStar atomMatches]. rewrite Hm. unfold matchOne.
    cbn [atomMatches]. now destruct (N.eqb_spec m c).
  - cbn [app matchStar atomMatches]. rewrite Hw, IH. unfold matchOne.
    cbn [atomMatches]. destruct (N.eqb_spec w c) as [->|]; [|reflexivity].
    rewrite Hc in Hw. discriminate.
Qed.

Section Anchored.

Variable r : RegExp.t.
Variable c : char.
Variable ts : list term.
Hypothesis Hsource :
  source r = Caret :: Atom Space Star :: Atom (Chr c) One :: ts.
Hypothesis Hmultiline : multiline r = true.

Lemma anchored_inside p s :
  isLineTerminator p = false -> matcher r (Some p) s = None.
Proof.
  intros Hp. unfold matcher. rewrite Hsource, Hmultiline.
  cbn [matchTerms matchTerm atLineStart]. now rewrite Hp.
Qed.

Lemma anchored_at_end prev : matcher r prev [] = None.
Proof.
  unfold matcher. rewrite Hsource.
  cbn [matchTerms matchTerm matchStar matchOne].
  now destruct (atLineStart (multiline r) prev).
Qed.

(** Past the start of a line the rule finds nothing up to the end of the
    line, nor behind a final line feed. *)
Lemma anchored_search_inside line trail :
  In trail [[]; [LF]] ->
  forall p i,
    isLineTerminator p = false ->
    Forall (fun x => isLineTerminator x = false) line ->
    search r (Some p) (line ++ trail) i = None.
Proof.
  intros Htrail. induction line as [|x line IH]; intros p i Hp Hline.
  - destruct Htrail as [<-|[<-|[]]]; cbn [app search].
    + now rewrite anchored_at_end.
    + now rewrite (anchored_inside p _ Hp), anchored_at_end.
  - inversion Hline; subst. cbn [app search].
    rewrite (anchored_inside p _ Hp). now apply IH.
Qed.

(** The rule finds nothing in a text whose one line begins, behind
    whitespace, with another character than [c]. *)
Lemma anchored_search_none ws m line trail :
  isSpace c = false -> allSpace ws -> isSpace m = false -> m <> c ->
  Forall (fun x => isLineTerminator x = false) (m :: line) ->
  In trail [[]; [LF]] ->
  forall prev i, search r prev (ws ++ m :: line ++ trail) i = None.
Proof.
  intros Hc Hws Hm Hmc Hline Htrail.
  assert (Hstart : forall ws' prev,
             allSpace ws' ->
             matcher r prev (ws' ++ m :: line ++ trail) = None).
  { intros ws' prev Hws'. unfold matcher. rewrite Hsource.
    cbn [matchTerms matchTerm].
    destruct (atLineStart (multiline r) prev); [|reflexivity].
    now apply anchored_start_none. }
  inversion Hline as [|? ? Hmlt Hrest]; subst.
  induction Hws as [|w ws Hw Hws IH]; intros prev i.
  - pose proof (Hstart [] prev ltac:(constructor)) as H0.
    cbn [app] in H0. cbn [app search]. rewrite H0.
    now apply anchored_search_inside.
  - pose proof (Hstart (w :: ws) prev ltac:(now constructor)) as H0.
    cbn [app] in H0. cbn [app search]. rewrite H0.
    apply IH.
Qed.

End Anchored.

Lemma no_match_test r s : search r None s 0 = None -> test r s = false.
Proof. unfold test. now intros ->. Qed.

(** [/^\s*marker.*$/gm], the shape of the two line comment rules. *)
Lemma comment_rule_match marker indent body trail :
  allSpace indent -> isSpace (hd 32%N (str marker)) = false ->
  Forall (fun x => isLineTerminator x = false) body ->
  In trail [[]; [LF]] ->
  matcher (flags_gm ([Caret; anySpace] ++ lits marker
                     ++ [Atom Dot Star; Dollar]))
    None (indent ++ str marker ++ body ++ trail)
  = Some (List.length (indent ++ str marker ++ body)).
Proof.
  intros Hindent Hmarker Hbody Htrail. unfold matcher, anySpace.
  cbn [source multiline dotAll flags_gm app matchTerms matchTerm atLineStart].
  rewrite (matchStar_run false Space _ indent _
             (List.length (str marker ++ body))).
  - now rewrite (length_app indent).
  - exact Hindent.
  - destruct (str marker) as [|m ms]; [discriminate|]. exact Hmarker.
  - intros prev.
    rewrite (lits_run true false (str marker) _ _ (List.length body));
      [now rewrite (length_app (str marker))|].
    intros prev'. cbn [matchTerms matchTerm].
    rewrite (matchStar_run false Dot _ body trail 0);
      [now rewrite Nat.add_0_r| | |].
    + eapply Forall_impl; [|exact Hbody]. intros x Hx.
      cbn [atomMatches]. now rewrite Hx.
    + destruct Htrail as [<-|[<-|[]]]; [exact I|reflexivity].
    + intros prev''. destruct Htrail as [<-|[<-|[]]]; reflexivity.
Qed.

Lemma replaceAllFrom_matched r repl n prev s :
  matcher r prev s = Some n -> 1 <= n ->
  replaceAllFrom r repl 0 prev s = repl ++ replaceAllFrom r repl n prev s.
Proof.
  intros Hm Hn. destruct n as [|k]; [lia|].
  destruct s as [|x s]; simpl; rewrite Hm; reflexivity.
Qed.

Lemma replaceAllFrom_skip_prefix r repl rest :
  forall pre prev,
    replaceAllFrom r repl (List.length pre) prev (pre ++ rest)
    = replaceAllFrom r repl 0 (fold_left (fun _ x => Some x) pre prev) rest.
Proof.
  induction pre as [|x pre IH]; intros prev; [reflexivity|].
  simpl. apply IH.
Qed.

(** The line comment rule takes the comment line and leaves what is behind
    it. *)
Lemma comment_rule_replace marker indent body trail :
  allSpace indent -> isSpace (hd 32%N (str marker)) = false ->
  Forall (fun x => isLineTerminator x = false) (str marker) ->
  Forall (fun x => isLineTerminator x = false) body ->
  In trail [[]; [LF]] ->
  replace (indent ++ str marker ++ body ++ trail)
    (flags_gm ([Caret; anySpace] ++ lits marker ++ [Atom Dot Star; Dollar]))
    []
  = trail.
Proof.
  intros Hindent Hmarker Hmlt Hbody Htrail.
  pose proof (comment_rule_match marker indent body trail Hindent Hmarker
                Hbody Htrail) as Hm.
  set (r := flags_gm _) in *.
  assert (Hline : Forall (fun x => isLineTerminator x = false)
                    (str marker ++ body))
    by (apply Forall_app; now split).
  assert (Hne : str marker ++ body <> [])
    by (destruct (str marker); [discriminate Hmarker|discriminate]).
  destruct (exists_last Hne) as (line & p & Hlast).
  rewrite Hlast in Hline. apply Forall_app in Hline.
  destruct Hline as [_ Hp]. inversion Hp as [|? ? Hplt _]; subst.
  unfold replace. change (global r) with true. cbv iota.
  replace (indent ++ str marker ++ body ++ trail)
    with ((indent ++ str marker ++ body) ++ trail) in *
    by now rewrite <- !app_assoc.
  rewrite (replaceAllFrom_matched r [] _ None _ Hm)
    by (rewrite length_app, Hlast, length_app; simpl; lia).
  rewrite replaceAllFrom_skip_prefix. cbn [app].
  rewrite Hlast, app_assoc, fold_left_app. cbn [fold_left].
  apply (replaceAllFrom_none r [] trail (Some p) 0).
  destruct (str marker) as [|m ms] eqn:Em; [discriminate Hmarker|].
  apply (anchored_search_inside r m
           (map (fun x => Atom (Chr x) One) ms ++ [Atom Dot Star; Dollar])
           ltac:(unfold r, lits; rewrite Em; reflexivity) eq_refl
           [] trail Htrail p 0 Hplt).
  constructor.
Qed.

Lemma anchoredOff_no_match m r indent line trail :
  anchoredOff m r = true ->
  allSpace indent -> isSpace m = false ->
  Forall (fun x => isLineTerminator x = false) (m :: line) ->
  In trail [[]; [LF]] ->
  test r (indent ++ m :: line ++ trail) = false.
Proof.
  unfold anchoredOff.
  destruct (source r) as [|[| |a0 q0] [|[| |[| | |] []] [|[| |[c| | |] []] ts]]]
    eqn:Hsource; try discriminate.
  rewrite !andb_true_iff, !negb_true_iff, N.eqb_neq.
  intros [[Hmultiline Hc] Hcm] Hindent Hm Hline Htrail.
  apply no_match_test.
  apply (anchored_search_none r c ts Hsource Hmultiline indent m line trail);
    try assumption.
  congruence.
Qed.

(** X17: a text that is one line comment of its language, [//] for the
    languages of the C family and [#] for those of the shell family, with
    whitespace in front of it and a line feed or nothing behind it, is
    cleaned to the empty text. *)
Theorem whole_line_comment_removed languageId marker indent body trail :
  In languageId cLike /\ marker = "//"
  \/ In languageId hashLike /\ marker = "#" ->
  allSpace indent ->
  Forall (fun x => isLineTerminator x = false) body ->
  In trail [[]; [LF]] ->
  removePatterns (indent ++ str marker ++ body ++ trail) languageId = [].
Proof.
  intros Hlang Hindent Hbody Htrail.
  assert (Hmarker : In marker ["//"; "#"])
    by (destruct Hlang as [[_ ->]|[_ ->]]; simpl; tauto).
  assert (Hcomment :
    replace (indent ++ str marker ++ body ++ trail)
      (flags_gm ([Caret; anySpace] ++ lits marker
                 ++ [Atom Dot Star; Dollar])) [] = trail).
  { apply comment_rule_replace; try assumption;
      destruct Hmarker as [<-|[<-|[]]]; try reflexivity;
      repeat constructor. }
  assert (Hother : forall r,
             anchoredOff (hd 32%N (str marker)) r = true ->
             test r (indent ++ str marker ++ body ++ trail) = false).
  { intros r Hr. destruct Hmarker as [<-|[<-|[]]].
    - apply (anchoredOff_no_match (ch "/") r indent (ch "/" :: body) trail);
        try assumption; [reflexivity|].
      repeat constructor. exact Hbody.
    - apply (anchoredOff_no_match (ch "#") r indent body trail);
        try assumption; [reflexivity|].
      constructor; [reflexivity|exact Hbody]. }
  set (t := indent ++ str marker ++ body ++ trail) in *. clearbody t.
  unfold removePatterns, patterns, cLike, hashLike in *. simpl in Hlang.
  destruct Hlang as [[Hlang ->]|[Hlang ->]];
    repeat (destruct Hlang as [<-|Hlang];
            [repeat first
               [ rewrite applyPatterns_skip by reflexivity
               | rewrite applyPatterns_apply by reflexivity; cbn [regex];
                 rewrite (replace_no_match t _ [])
                   by (apply Hother; reflexivity) ];
             rewrite applyPatterns_apply by reflexivity; cbn [regex];
             rewrite Hcomment;
             destruct Htrail as [<-|[<-|[]]]; vm_compute; reflexivity|]);
    contradiction.
Qed.

Lemma whole_line_comment_removed_witness :
  removePatterns
    (str "  " ++ str "//" ++ str " console.log(x);" ++ [LF]) "javascript"
  = [].
Proof.
  apply (whole_line_comment_removed "javascript" "//" (str "  ")
           (str " console.log(x);") [LF]).
  - left. split; [simpl; tauto|reflexivity].
  - repeat constructor.
  - repeat constructor.
  - simpl. tauto.
Defined.
